(** * digitron.c: the expression evaluator and the node pool

    A shallow embedding of
    [wasm/src/org.graalvm.wasm.benchcases/src/bench/c/micro/digitron.c]:
    the environment, the expression nodes with their [execute_*] functions,
    and the freelist allocator behind [allocate] / [deallocate].

    Conventions.
    - A C [double] is a primitive binary64 float.
    - A call whose behaviour the C standard leaves undefined (an array index
      out of bounds, a conversion to [int64_t] of a value that does not fit,
      an integer remainder by zero) has the outcome [Undefined]; every other
      call [Returns] its value together with the state it leaves behind.
    - A pointer into [freelist_memory] is the index of its chunk, [NULL] is
      [None]. *)

From Stdlib Require Import ZArith Lia Bool List Ascii Floats.
From stdpp Require Import base list.

Local Open Scope Z_scope.

(** ** Outcomes and the state monad of the C functions *)

Inductive outcome (A : Type) : Type :=
| Returns (a : A)
| Undefined.
Arguments Returns {A} a.
Arguments Undefined {A}.

Definition M (S A : Type) : Type := S -> outcome (A * S).

Definition ret {S A : Type} (a : A) : M S A := fun s => Returns (a, s).

Definition bind {S A B : Type} (m : M S A) (k : A -> M S B) : M S B :=
  fun s =>
    match m s with
    | Returns (a, s') => k a s'
    | Undefined => Undefined
    end.

Definition undefined {S A : Type} : M S A := fun _ => Undefined.

Definition get {S : Type} : M S S := fun s => Returns (s, s).

Definition put {S : Type} (s : S) : M S unit := fun _ => Returns (tt, s).

Declare Scope c_scope.
Delimit Scope c_scope with C.
Notation "x <- m ;; k" := (bind m (fun x => k))
  (at level 100, m at next level, right associativity) : c_scope.
Notation "m ;;; k" := (bind m (fun _ => k))
  (at level 100, right associativity) : c_scope.

(** ** Numbers *)

Abbreviation double := float (only parsing).

Definition INT64_MIN : Z := - 2 ^ 63.
Definition INT64_MAX : Z := 2 ^ 63 - 1.

(** The integral part of a double, toward zero; nothing for a NaN or an
    infinity. A finite double is [(-1)^s * m * 2^e]. *)
Definition double_trunc (d : double) : option Z :=
  match Prim2SF d with
  | S754_zero _ => Some 0
  | S754_finite s m e =>
      let mag := Z.shiftl (Z.pos m) e in
      Some (if s then - mag else mag)
  | S754_infinity _ | S754_nan => None
  end.

(** [(int64_t) d]: defined when the integral part fits. *)
Definition double_to_int64 (d : double) : option Z :=
  match double_trunc d with
  | Some z => if (INT64_MIN <=? z) && (z <=? INT64_MAX) then Some z else None
  | None => None
  end.

(** [(double) i], rounding to nearest even. *)
Definition int64_to_double (i : Z) : double :=
  SF2Prim (binary_normalize prec emax i 0 false).

(** [a % b] on [int64_t]: truncating remainder; undefined for a zero
    divisor and when the quotient [a / b] does not fit. *)
Definition int64_rem (a b : Z) : option Z :=
  if b =? 0 then None
  else if (a =? INT64_MIN) && (b =? -1) then None
  else Some (Z.rem a b).

(** ** The environment *)

Definition ENV_SIZE : Z := Z.of_N (N_of_ascii "z") - Z.of_N (N_of_ascii "a") + 1.
Definition REGISTER_COUNT : Z := 10.

Record environment : Type := {
  inputs : list double;
  registers : list double
}.

(** The arrays have their declared sizes. *)
Definition env_wf (env : environment) : Prop :=
  Z.of_nat (length (inputs env)) = ENV_SIZE /\
  Z.of_nat (length (registers env)) = REGISTER_COUNT.

(** [a[i]] for an [int] index: nothing out of bounds. *)
Definition array_get {A : Type} (a : list A) (i : Z) : option A :=
  if i <? 0 then None else a !! Z.to_nat i.

(** [a[i] = v]: nothing out of bounds. *)
Definition array_set {A : Type} (a : list A) (i : Z) (v : A) : option (list A) :=
  if (0 <=? i) && (i <? Z.of_nat (length a)) then Some (<[Z.to_nat i := v]> a)
  else None.

Definition set_inputs (env : environment) (l : list double) : environment :=
  {| inputs := l; registers := registers env |}.

Definition set_registers (env : environment) (l : list double) : environment :=
  {| inputs := inputs env; registers := l |}.

Definition environment_init (env : environment) : environment :=
  let env1 :=
    fold_left (fun e i => set_inputs e (<[i := 0%float]> (inputs e)))
              (seq 0 (Z.to_nat ENV_SIZE)) env in
  fold_left (fun e i => set_registers e (<[i := 0%float]> (registers e)))
            (seq 0 (Z.to_nat REGISTER_COUNT)) env1.

(** ** Expression trees *)

Inductive expr : Type :=
| Constant (value : double)
| Add (left right : expr)
| Sub (left right : expr)
| Mul (left right : expr)
| Div (left right : expr)
| Rem (left right : expr)
| Sqrt (argument : expr)
| Load (reg_index : Z)
| Store (reg_index : Z) (argument : expr)
| Ident (name : ascii).

Definition char_code (c : ascii) : Z := Z.of_N (N_of_ascii c).

Local Open Scope c_scope.

Definition execute_env_read (name : ascii) : M environment double :=
  env <- get ;;
  match array_get (inputs env) (char_code name - char_code "a") with
  | Some v => ret v
  | None => undefined
  end.

Definition execute_env_reg_load (index : Z) : M environment double :=
  env <- get ;;
  match array_get (registers env) index with
  | Some v => ret v
  | None => undefined
  end.

Definition execute_env_reg_store (index : Z) (value : double)
  : M environment double :=
  env <- get ;;
  match array_set (registers env) index value with
  | Some regs => put (set_registers env regs) ;;; ret value
  | None => undefined
  end.

Section Execute.
(** The [exec] field of a child node, applied to that child. *)
Variables exec_left exec_right exec_argument : M environment double.

Definition execute_constant (value : double) : M environment double :=
  ret value.

Definition execute_add : M environment double :=
  l <- exec_left ;; r <- exec_right ;; ret (l + r)%float.

Definition execute_sub : M environment double :=
  l <- exec_left ;; r <- exec_right ;; ret (l - r)%float.

Definition execute_mul : M environment double :=
  l <- exec_left ;; r <- exec_right ;; ret (l * r)%float.

Definition execute_div : M environment double :=
  l <- exec_left ;; r <- exec_right ;; ret (l / r)%float.

Definition execute_rem : M environment double :=
  l <- exec_left ;;
  r <- exec_right ;;
  match double_to_int64 l, double_to_int64 r with
  | Some il, Some ir =>
      match int64_rem il ir with
      | Some irem => ret (int64_to_double irem)
      | None => undefined
      end
  | _, _ => undefined
  end.

Definition execute_sqrt : M environment double :=
  a <- exec_argument ;; ret (sqrt a).

Definition execute_load (reg_index : Z) : M environment double :=
  execute_env_reg_load reg_index.

Definition execute_store (reg_index : Z) : M environment double :=
  v <- exec_argument ;; execute_env_reg_store reg_index v.

Definition execute_ident (name : ascii) : M environment double :=
  execute_env_read name.
End Execute.

(** Modelled from the spec: the body of [expr_create], which fills in the
    [exec] field of a node, is cut off in the source; by the spec's per-kind
    semantics each node carries the [execute_*] function of its kind, so the
    call [e->exec(e, env)] is this dispatch on the kind of [e]. *)
Fixpoint exec (e : expr) : M environment double :=
  match e with
  | Constant v => execute_constant v
  | Add l r => execute_add (exec l) (exec r)
  | Sub l r => execute_sub (exec l) (exec r)
  | Mul l r => execute_mul (exec l) (exec r)
  | Div l r => execute_div (exec l) (exec r)
  | Rem l r => execute_rem (exec l) (exec r)
  | Sqrt a => execute_sqrt (exec a)
  | Load i => execute_load i
  | Store i a => execute_store (exec a) i
  | Ident c => execute_ident c
  end.

(** ** The node pool *)

(** A pointer to a chunk of [freelist_memory]: the index of the chunk, or
    [NULL]. *)
Definition chunk_ptr : Type := option nat.
Definition NULL : chunk_ptr := None.

(** [freelist_memory] through the [next] member of its chunks, and
    [freelist_head]. The [chunk] member of the union is written by
    [expr_create] only, on chunks that [allocate] has handed out. *)
Record pool : Type := {
  freelist_memory : list chunk_ptr;
  freelist_head : chunk_ptr
}.

Definition allocate : M pool chunk_ptr :=
  st <- get ;;
  match freelist_head st with
  | None => ret NULL
  | Some c =>
      match freelist_memory st !! c with
      | Some next =>
          put {| freelist_memory := freelist_memory st; freelist_head := next |} ;;;
          ret (Some c)
      | None => undefined
      end
  end.

Definition deallocate (e : chunk_ptr) : M pool unit :=
  st <- get ;;
  match e with
  | Some c =>
      if decide (c < length (freelist_memory st))%nat then
        put {| freelist_memory := <[c := freelist_head st]> (freelist_memory st);
               freelist_head := Some c |}
      else undefined
  | None => undefined
  end.

Section Capacity.
(** The number of chunks of [freelist_memory]; 10000 in digitron.c. *)
Variable MAX_EXPR_NODES : nat.

Definition pool_wf (st : pool) : Prop :=
  length (freelist_memory st) = MAX_EXPR_NODES.

(** One round of the loop of [freelist_init]. *)
Definition freelist_init_step (mem : list chunk_ptr) (i : nat)
  : list chunk_ptr :=
  <[i := if decide (i = MAX_EXPR_NODES - 1)%nat then NULL else Some (i + 1)%nat]> mem.

Definition freelist_init : M pool unit :=
  st <- get ;;
  put {| freelist_memory :=
           fold_left freelist_init_step (seq 0 MAX_EXPR_NODES) (freelist_memory st);
         freelist_head := Some 0%nat |}.
End Capacity.

Definition MAX_EXPR_NODES : nat := Z.to_nat 10000.

(** [k] calls of [allocate] in a row, with the pointers they return. *)
Fixpoint allocate_times (k : nat) : M pool (list chunk_ptr) :=
  match k with
  | O => ret []
  | S k' => c <- allocate ;; cs <- allocate_times k' ;; ret (c :: cs)
  end.

(** The chunks on the freelist, from the head, at most [fuel] of them. *)
Fixpoint freelist_walk (fuel : nat) (mem : list chunk_ptr) (head : chunk_ptr)
  : list nat :=
  match fuel, head with
  | S fuel', Some c =>
      c :: match mem !! c with
           | Some next => freelist_walk fuel' mem next
           | None => []
           end
  | _, _ => []
  end.

(** An environment before [environment_init]: nothing meaningful in any
    slot. *)
Definition blank : environment :=
  {| inputs := replicate (Z.to_nat ENV_SIZE) nan;
     registers := replicate (Z.to_nat REGISTER_COUNT) nan |}.

(** The environment of a round of the benchmark: all zero, with the input
    value bound to [x]. *)
Definition bound_x (value : double) : environment :=
  set_inputs (environment_init blank)
    (<[Z.to_nat (char_code "x" - char_code "a") := value]>
       (inputs (environment_init blank))).

(** The pool of [n] chunks as the program starts: zeroed static storage. *)
Definition blank_pool (n : nat) : pool :=
  {| freelist_memory := replicate n NULL; freelist_head := NULL |}.

(** Program 19 of the table [functions]:
    [@store(5, x - 1) / @sqrt(1 + @load(5) * @load(5))]. *)
Definition program_19 : expr :=
  Div (Store 5 (Sub (Ident "x") (Constant 1)))
      (Sqrt (Add (Constant 1) (Mul (Load 5) (Load 5)))).

(** A node that counts its own evaluations in register 1:
    [@store(1, @load(1) + 1)]. *)
Definition counter : expr := Store 1 (Add (Load 1) (Constant 1)).

(** The spec's reading of a binary node: the left child runs first, the
    right child runs in the environment the left child leaves, and the
    operator [f] combines the two values. *)
Definition left_then_right (l r : expr) (f : double -> double -> option double)
  : M environment double :=
  fun env =>
    match exec l env with
    | Returns (vl, env1) =>
        match exec r env1 with
        | Returns (vr, env2) =>
            match f vl vr with
            | Some v => Returns (v, env2)
            | None => Undefined
            end
        | Undefined => Undefined
        end
    | Undefined => Undefined
    end.

(** The spec's reading of the remainder: truncate both operands to signed
    64-bit integers, take the truncating remainder, convert back. *)
Definition truncating_rem (vl vr : double) : option double :=
  match double_to_int64 vl, double_to_int64 vr with
  | Some il, Some ir => option_map int64_to_double (int64_rem il ir)
  | _, _ => None
  end.

(** The children of a binary node. *)
Definition binary_children (e : expr) : option (expr * expr) :=
  match e with
  | Add l r | Sub l r | Mul l r | Div l r | Rem l r => Some (l, r)
  | _ => None
  end.

(** The registers that the [Store] nodes of a tree write to. *)
Fixpoint store_targets (e : expr) : list Z :=
  match e with
  | Constant _ | Load _ | Ident _ => []
  | Add l r | Sub l r | Mul l r | Div l r | Rem l r =>
      store_targets l ++ store_targets r
  | Sqrt a => store_targets a
  | Store i a => i :: store_targets a
  end.

(** The link that [freelist_init] writes into chunk [i] of [N]. *)
Definition initial_next (N i : nat) : chunk_ptr :=
  if decide (i = N - 1)%nat then NULL else Some (i + 1)%nat.

(** The pool of [N] chunks that [freelist_init] leaves, after [j] chunks
    were handed out in a row. *)
Definition drawn (N : nat) (mem : list chunk_ptr) (j : nat) : pool :=
  {| freelist_memory := fold_left (freelist_init_step N) (seq 0 N) mem;
     freelist_head := if decide (j < N)%nat then Some j else NULL |}.

(** A tree whose evaluation stays inside the arrays: every register index
    is one of the ten registers, every identifier one of the letters
    'a'..'z', and there is no remainder node. *)
Fixpoint well_indexed (e : expr) : bool :=
  match e with
  | Constant _ => true
  | Add l r | Sub l r | Mul l r | Div l r => well_indexed l && well_indexed r
  | Rem _ _ => false
  | Sqrt a => well_indexed a
  | Load i => (0 <=? i) && (i <? REGISTER_COUNT)
  | Store i a => (0 <=? i) && (i <? REGISTER_COUNT) && well_indexed a
  | Ident c => (char_code "a" <=? char_code c) && (char_code c <=? char_code "z")
  end.

(** The links of [mem] lead from [head] through the chunks [l], in this
    order, and end in [NULL]. *)
Fixpoint freelist_chain (mem : list chunk_ptr) (head : chunk_ptr) (l : list nat)
  : Prop :=
  match l with
  | [] => head = NULL
  | c :: l' =>
      head = Some c /\
      exists next, mem !! c = Some next /\ freelist_chain mem next l'
  end.

(** The freelist of the pool holds the chunks [l], each once. *)
Definition freelist_is (st : pool) (l : list nat) : Prop :=
  freelist_chain (freelist_memory st) (freelist_head st) l /\ NoDup l.

(** The integral part of a double, in the words of the C standard: the
    fractional part is discarded. A finite double is [(-1)^s * m * 2^e];
    [z] has its sign and [|z| <= m * 2^e < |z| + 1] (both sides scaled by a
    power of two so that they are integers). A NaN or an infinity has
    none. *)
Definition truncates_to (v : double) (z : Z) : Prop :=
  match Prim2SF v with
  | S754_zero _ => z = 0
  | S754_finite s m e =>
      (if s then z <= 0 else 0 <= z) /\
      Z.abs z * 2 ^ Z.max 0 (- e) <= Z.pos m * 2 ^ Z.max 0 e
      < (Z.abs z + 1) * 2 ^ Z.max 0 (- e)
  | S754_infinity _ | S754_nan => False
  end.

(** The double has an integral part, and it is a signed 64-bit integer. *)
Definition fits_int64 (v : double) : Prop :=
  exists z, truncates_to v z /\ - 2 ^ 63 <= z < 2 ^ 63.

(** The value of the double is exactly the integer [z]. *)
Definition represents (v : double) (z : Z) : Prop :=
  match Prim2SF v with
  | S754_zero _ => z = 0
  | S754_finite s m e =>
      (if s then z < 0 else 0 < z) /\
      Z.pos m * 2 ^ Z.max 0 e = Z.abs z * 2 ^ Z.max 0 (- e)
  | S754_infinity _ | S754_nan => False
  end.

(** * Properties *)

(** ** The monad *)

Lemma bind_returns {S A B : Type} (m : M S A) (k : A -> M S B) s b s' :
  bind m k s = Returns (b, s') <->
  exists a s1, m s = Returns (a, s1) /\ k a s1 = Returns (b, s').
Proof.
  unfold bind. split.
  - destruct (m s) as [[a s1]|]; [eauto | discriminate].
  - intros (a & s1 & -> & Hk). exact Hk.
Qed.

Lemma bind_undefined_l {S A B : Type} (m : M S A) (k : A -> M S B) s :
  m s = Undefined -> bind m k s = Undefined.
Proof. unfold bind. now intros ->. Qed.

Lemma bind_step {S A B : Type} (m : M S A) (k : A -> M S B) s a s1 :
  m s = Returns (a, s1) -> bind m k s = k a s1.
Proof. unfold bind. now intros ->. Qed.

Lemma ret_returns {S A : Type} (a b : A) (s s' : S) :
  ret a s = Returns (b, s') <-> a = b /\ s = s'.
Proof. unfold ret. split; [now inversion 1 | now intros [-> ->]]. Qed.

(** Splits a hypothesis [bind m k s = Returns _] into its two runs. *)
Ltac bind_inv H :=
  let a := fresh "v" in
  let s := fresh "env" in
  let Hm := fresh "Hrun" in
  apply bind_returns in H as (a & s & Hm & H).

(** ** Arrays *)

Lemma array_get_Some {A : Type} (a : list A) (i : Z) (v : A) :
  array_get a i = Some v <-> 0 <= i /\ a !! Z.to_nat i = Some v.
Proof.
  unfold array_get. destruct (Z.ltb_spec i 0); split.
  - discriminate.
  - intros [? _]. lia.
  - intros. split; [lia | assumption].
  - now intros [_ ?].
Qed.

Lemma array_get_in_bounds {A : Type} (a : list A) (i : Z) :
  0 <= i < Z.of_nat (length a) -> exists v, array_get a i = Some v.
Proof.
  intros Hi. destruct (lookup_lt_is_Some_2 a (Z.to_nat i)) as [v Hv]; [lia|].
  exists v. apply array_get_Some. split; [lia | assumption].
Qed.

Lemma array_get_out_of_bounds {A : Type} (a : list A) (i : Z) :
  i < 0 \/ Z.of_nat (length a) <= i -> array_get a i = None.
Proof.
  intros Hi. unfold array_get. destruct (Z.ltb_spec i 0); [reflexivity|].
  apply lookup_ge_None. lia.
Qed.

Lemma array_set_Some {A : Type} (a a' : list A) (i : Z) (v : A) :
  array_set a i v = Some a' <->
  0 <= i < Z.of_nat (length a) /\ a' = <[Z.to_nat i := v]> a.
Proof.
  unfold array_set.
  destruct (Z.leb_spec 0 i), (Z.ltb_spec i (Z.of_nat (length a))); simpl;
    split; try discriminate; try (intros [? _]; lia).
  - inversion 1. split; [lia | reflexivity].
  - now intros [_ ->].
Qed.

Lemma array_get_set_eq {A : Type} (a a' : list A) (i : Z) (v : A) :
  array_set a i v = Some a' -> array_get a' i = Some v.
Proof.
  intros [Hi ->]%array_set_Some. apply array_get_Some. split; [lia|].
  apply list_lookup_insert_eq. lia.
Qed.

Lemma array_get_set_ne {A : Type} (a a' : list A) (i j : Z) (v : A) :
  array_set a i v = Some a' -> j <> i -> array_get a' j = array_get a j.
Proof.
  intros [Hi ->]%array_set_Some Hne. unfold array_get.
  destruct (Z.ltb_spec j 0); [reflexivity|].
  apply list_lookup_insert_ne. lia.
Qed.

Lemma array_set_length {A : Type} (a a' : list A) (i : Z) (v : A) :
  array_set a i v = Some a' -> length a' = length a.
Proof. intros [_ ->]%array_set_Some. apply length_insert. Qed.

(** ** The accessors of the environment *)

Lemma execute_env_reg_store_returns index value env v env' :
  execute_env_reg_store index value env = Returns (v, env') <->
  exists regs, array_set (registers env) index value = Some regs /\
               v = value /\ env' = set_registers env regs.
Proof.
  unfold execute_env_reg_store, bind, get, put, ret, undefined.
  destruct (array_set (registers env) index value) as [regs|]; split.
  - inversion 1. eauto.
  - intros (regs' & [= <-] & -> & ->). reflexivity.
  - discriminate.
  - intros (? & [=] & _).
Qed.

Lemma execute_env_reg_load_returns index env v env' :
  execute_env_reg_load index env = Returns (v, env') <->
  array_get (registers env) index = Some v /\ env' = env.
Proof.
  unfold execute_env_reg_load, bind, get, ret, undefined.
  destruct (array_get (registers env) index); split.
  - inversion 1. auto.
  - now intros [[= ->] ->].
  - discriminate.
  - now intros [[=] _].
Qed.

Lemma execute_env_read_returns name env v env' :
  execute_env_read name env = Returns (v, env') <->
  array_get (inputs env) (char_code name - char_code "a") = Some v /\ env' = env.
Proof.
  unfold execute_env_read, bind, get, ret, undefined.
  destruct (array_get (inputs env) _); split.
  - inversion 1. auto.
  - now intros [[= ->] ->].
  - discriminate.
  - now intros [[=] _].
Qed.

(** ** Inversion of the evaluation of a node *)

Lemma execute_rem_returns (el er : M environment double) env v env' :
  execute_rem el er env = Returns (v, env') <->
  exists vl env1 vr il ir irem,
    el env = Returns (vl, env1) /\ er env1 = Returns (vr, env') /\
    double_to_int64 vl = Some il /\ double_to_int64 vr = Some ir /\
    int64_rem il ir = Some irem /\ v = int64_to_double irem.
Proof.
  unfold execute_rem. split.
  - intros H. bind_inv H. bind_inv H.
    destruct (double_to_int64 v0) as [il|] eqn:Hil; [|discriminate].
    destruct (double_to_int64 v1) as [ir|] eqn:Hir; [|discriminate].
    destruct (int64_rem il ir) as [irem|] eqn:Hrem; [|discriminate].
    apply ret_returns in H as [<- <-].
    exists v0, env0, v1, il, ir, irem. repeat split; assumption || reflexivity.
  - intros (vl & env1 & vr & il & ir & irem & Hl & Hr & Hil & Hir & Hrem & ->).
    rewrite (bind_step _ _ _ _ _ Hl), (bind_step _ _ _ _ _ Hr), Hil, Hir, Hrem.
    reflexivity.
Qed.

(** The two runs behind the evaluation of a binary node: the left child
    from the environment of the call, the right child from the environment
    the left child leaves. *)
Lemma exec_binary_runs e l r env v env' :
  binary_children e = Some (l, r) ->
  exec e env = Returns (v, env') ->
  exists vl env1 vr,
    exec l env = Returns (vl, env1) /\ exec r env1 = Returns (vr, env').
Proof.
  intros Hc H.
  destruct e; inversion Hc; subst; simpl in H;
    try (apply execute_rem_returns in H
           as (vl & env1 & vr & _ & _ & _ & Hl & Hr & _); eauto);
    unfold execute_add, execute_sub, execute_mul, execute_div in H;
    bind_inv H; bind_inv H; apply ret_returns in H as [_ <-]; eauto.
Qed.

Lemma exec_store_returns i a env v env' :
  exec (Store i a) env = Returns (v, env') <->
  exists env1 regs,
    exec a env = Returns (v, env1) /\
    array_set (registers env1) i v = Some regs /\
    env' = set_registers env1 regs.
Proof.
  simpl. unfold execute_store. rewrite bind_returns. split.
  - intros (va & env1 & Ha & (regs & Hset & -> & ->)%execute_env_reg_store_returns).
    eauto.
  - intros (env1 & regs & Ha & Hset & ->). exists v, env1. split; [assumption|].
    apply execute_env_reg_store_returns. eauto.
Qed.


Lemma exec_preserves e :
  forall env v env',
    exec e env = Returns (v, env') ->
    inputs env' = inputs env /\
    length (registers env') = length (registers env) /\
    forall j, ~ In j (store_targets e) ->
              array_get (registers env') j = array_get (registers env) j.
Proof.
  induction e; intros env v env' H;
    try (match goal with
         | |- context [store_targets (?op ?l ?r)] =>
             destruct (exec_binary_runs (op l r) l r env v env' eq_refl H)
               as (vl & env1 & vr & Hl & Hr);
             destruct (IHe1 _ _ _ Hl) as (Hi1 & Hn1 & Hr1);
             destruct (IHe2 _ _ _ Hr) as (Hi2 & Hn2 & Hr2);
             split; [congruence | split; [congruence |]];
             intros j Hj; simpl in Hj; rewrite in_app_iff in Hj;
             rewrite Hr2, Hr1; tauto
         end).
  - (* Constant *)
    apply ret_returns in H as [_ <-]. auto.
  - (* Sqrt *)
    simpl in H. unfold execute_sqrt in H. bind_inv H.
    apply ret_returns in H as [_ <-]. eauto.
  - (* Load *)
    apply execute_env_reg_load_returns in H as [_ ->]. auto.
  - (* Store *)
    apply exec_store_returns in H as (env1 & regs & Ha & Hset & ->).
    destruct (IHe _ _ _ Ha) as (Hi & Hn & Hr). simpl.
    split; [assumption | split].
    + rewrite (array_set_length _ _ _ _ Hset). assumption.
    + intros j Hj. simpl in Hj.
      rewrite (array_get_set_ne _ _ _ j _ Hset) by (intros ->; tauto).
      apply Hr. tauto.
  - (* Ident *)
    apply execute_env_read_returns in H as [_ ->]. auto.
Qed.

Lemma exec_env_wf e env v env' :
  exec e env = Returns (v, env') -> env_wf env -> env_wf env'.
Proof.
  intros H [Hi Hr]. destruct (exec_preserves e _ _ _ H) as (Ei & En & _).
  split; congruence.
Qed.

Lemma environment_init_blank :
  environment_init blank =
  {| inputs := replicate 26 0%float; registers := replicate 10 0%float |}.
Proof. reflexivity. Qed.

Lemma environment_init_wf : env_wf (environment_init blank).
Proof. split; reflexivity. Qed.

(** Program 3 of the table, [x * x % 23 * 3], at x = 5: 25 % 23 = 2 and
    2 * 3 = 6. *)
Example program_3_at_5 :
  exec (Mul (Rem (Mul (Ident "x") (Ident "x")) (Constant 23)) (Constant 3))
       (bound_x 5)
  = Returns (6%float, bound_x 5).
Proof. reflexivity. Qed.

(** Program 19 at x = 1 stores 0 in register 5 and returns 0 / sqrt 1. *)
Example program_19_at_1 :
  exec program_19 (bound_x 1) = Returns (0%float, bound_x 1).
Proof. reflexivity. Qed.

(** ** Conversions between [double] and [int64_t] *)

(** [double_trunc] drops the fractional bits of [m * 2^e] and keeps the
    sign: it rounds toward zero. *)
Lemma double_trunc_finite d s m e :
  Prim2SF d = S754_finite s m e ->
  exists z, double_trunc d = Some z /\
            (0 <= e -> Z.abs z = Z.pos m * 2 ^ e) /\
            (e < 0 -> Z.abs z * 2 ^ (- e) <= Z.pos m < (Z.abs z + 1) * 2 ^ (- e)) /\
            (if s then z <= 0 else 0 <= z).
Proof.
  intros Hd. unfold double_trunc. rewrite Hd. eexists. split; [reflexivity|].
  assert (Hmag : 0 <= Z.shiftl (Z.pos m) e) by (apply Z.shiftl_nonneg; lia).
  assert (Habs : Z.abs (if s then - Z.shiftl (Z.pos m) e else Z.shiftl (Z.pos m) e)
                 = Z.shiftl (Z.pos m) e) by (destruct s; lia).
  rewrite Habs. repeat split.
  - intros He. now apply Z.shiftl_mul_pow2.
  - rewrite Z.shiftl_div_pow2 by lia.
    rewrite Z.mul_comm. apply Z.mul_div_le. apply Z.pow_pos_nonneg; lia.
  - rewrite Z.shiftl_div_pow2 by lia.
    assert (Hp : 0 < 2 ^ (- e)) by (apply Z.pow_pos_nonneg; lia).
    pose proof (Z.mod_pos_bound (Z.pos m) (2 ^ (- e)) Hp).
    pose proof (Z.div_mod (Z.pos m) (2 ^ (- e))). nia.
  - destruct s; lia.
Qed.

Lemma double_to_int64_range d z :
  double_to_int64 d = Some z -> INT64_MIN <= z <= INT64_MAX.
Proof.
  unfold double_to_int64. destruct (double_trunc d) as [t|]; [|discriminate].
  destruct (Z.leb_spec INT64_MIN t), (Z.leb_spec t INT64_MAX); simpl;
    inversion 1; subst; lia.
Qed.

Lemma int64_rem_Some a b :
  b <> 0 -> ~ (a = INT64_MIN /\ b = -1) -> int64_rem a b = Some (Z.rem a b).
Proof.
  intros Hb Hov. unfold int64_rem.
  destruct (Z.eqb_spec b 0); [contradiction|].
  destruct (Z.eqb_spec a INT64_MIN), (Z.eqb_spec b (-1)); simpl; tauto.
Qed.

(** [double_to_int64] is the truncation toward zero, defined exactly when
    the integral part is a signed 64-bit integer. *)

Lemma shiftl_floor (m : positive) (e : Z) :
  0 <= Z.shiftl (Z.pos m) e /\
  Z.shiftl (Z.pos m) e * 2 ^ Z.max 0 (- e) <= Z.pos m * 2 ^ Z.max 0 e
  < (Z.shiftl (Z.pos m) e + 1) * 2 ^ Z.max 0 (- e).
Proof.
  split; [apply Z.shiftl_nonneg; lia|].
  destruct (Z.le_gt_cases 0 e) as [He|He].
  - rewrite Z.shiftl_mul_pow2 by assumption.
    rewrite (Z.max_l 0 (- e)), (Z.max_r 0 e) by lia. simpl (2 ^ 0). lia.
  - rewrite Z.shiftl_div_pow2 by lia.
    rewrite (Z.max_r 0 (- e)), (Z.max_l 0 e) by lia. simpl (2 ^ 0).
    assert (Hp : 0 < 2 ^ (- e)) by (apply Z.pow_pos_nonneg; lia).
    pose proof (Z.mod_pos_bound (Z.pos m) (2 ^ (- e)) Hp).
    pose proof (Z.div_mod (Z.pos m) (2 ^ (- e))). nia.
Qed.

Lemma floor_unique (a b M P : Z) :
  0 < P -> 0 <= a -> 0 <= b ->
  a * P <= M < (a + 1) * P -> b * P <= M < (b + 1) * P -> a = b.
Proof. intros. nia. Qed.

Lemma double_trunc_truncates (v : float) (z : Z) :
  double_trunc v = Some z <-> truncates_to v z.
Proof.
  unfold double_trunc, truncates_to.
  destruct (Prim2SF v) as [s|s| |s m e].
  - split; [now intros [= <-] | now intros ->].
  - split; [discriminate | contradiction].
  - split; [discriminate | contradiction].
  - destruct (shiftl_floor m e) as [Hpos Hfloor].
    set (mag := Z.shiftl (Z.pos m) e) in *. split.
    + intros [= <-].
      replace (Z.abs (if s then - mag else mag)) with mag by (destruct s; lia).
      split; [destruct s; lia | exact Hfloor].
    + intros [Hsign Hz].
      assert (Hp : 0 < 2 ^ Z.max 0 (- e)) by (apply Z.pow_pos_nonneg; lia).
      pose proof (floor_unique (Z.abs z) mag _ _ Hp (Z.abs_nonneg z) Hpos
                    Hz Hfloor) as Habs.
      f_equal. destruct s; lia.
Qed.

Lemma double_to_int64_truncates (v : float) (z : Z) :
  double_to_int64 v = Some z <-> truncates_to v z /\ - 2 ^ 63 <= z < 2 ^ 63.
Proof.
  unfold double_to_int64. rewrite <- double_trunc_truncates.
  destruct (double_trunc v) as [t|]; [|split; [discriminate | now intros [? _]]].
  unfold INT64_MIN, INT64_MAX.
  destruct (Z.leb_spec (- 2 ^ 63) t), (Z.leb_spec t (2 ^ 63 - 1)); simpl;
    split; try discriminate;
    try (intros [= <-]; split; [reflexivity | lia]);
    try (intros [[= ->] ?]; reflexivity || lia).
Qed.

Lemma double_to_int64_None (v : float) :
  double_to_int64 v = None <-> ~ fits_int64 v.
Proof.
  split.
  - intros Hnone (z & Hz). apply double_to_int64_truncates in Hz. congruence.
  - intros Hno. destruct (double_to_int64 v) as [z|] eqn:Hz; [|reflexivity].
    exfalso. apply Hno. exists z. now apply double_to_int64_truncates.
Qed.

(** [int64_to_double] is the conversion of the processor, and exact on the
    integers that a double holds. *)

Lemma digits2_pos_lower (p : positive) :
  2 ^ (Z.pos (digits2_pos p) - 1) <= Z.pos p.
Proof.
  induction p as [p IH|p IH|]; simpl digits2_pos.
  - rewrite Pos2Z.inj_succ.
    replace (Z.succ (Z.pos (digits2_pos p)) - 1)
      with (Z.succ (Z.pos (digits2_pos p) - 1)) by lia.
    rewrite Z.pow_succ_r by lia. lia.
  - rewrite Pos2Z.inj_succ.
    replace (Z.succ (Z.pos (digits2_pos p)) - 1)
      with (Z.succ (Z.pos (digits2_pos p) - 1)) by lia.
    rewrite Z.pow_succ_r by lia. lia.
  - simpl. lia.
Qed.

Lemma digits2_pos_small (p : positive) :
  Z.pos p < 2 ^ 53 -> Z.pos (digits2_pos p) <= 53.
Proof.
  intros Hp. destruct (Z.le_gt_cases (Z.pos (digits2_pos p)) 53) as [H|H];
    [exact H|]. exfalso.
  pose proof (digits2_pos_lower p) as Hlow.
  assert (2 ^ 53 <= 2 ^ (Z.pos (digits2_pos p) - 1))
    by (apply Z.pow_le_mono_r; lia).
  lia.
Qed.

Lemma iter_xO_value (p k : positive) :
  Z.pos (Pos.iter xO p k) = Z.pos p * 2 ^ Z.pos k.
Proof.
  induction k as [|k IH] using Pos.peano_ind.
  - simpl. lia.
  - rewrite Pos.iter_succ, Pos2Z.inj_xO, IH, Pos2Z.inj_succ, Z.pow_succ_r by lia.
    lia.
Qed.

Lemma iter_xO_digits (p k : positive) :
  Z.pos (digits2_pos (Pos.iter xO p k)) = Z.pos (digits2_pos p) + Z.pos k.
Proof.
  induction k as [|k IH] using Pos.peano_ind.
  - simpl. lia.
  - rewrite Pos.iter_succ. simpl digits2_pos.
    rewrite !Pos2Z.inj_succ, IH. lia.
Qed.

Lemma binary_round_aux_canonical (s : bool) (m : positive) (e : Z) :
  Z.pos (digits2_pos m) = 53 -> -1074 <= e <= 971 ->
  binary_round_aux prec emax s (Z.pos m) e loc_Exact = S754_finite s m e.
Proof.
  intros Hd He.
  assert (Hshift : fexp prec emax (Zdigits2 (Z.pos m) + e) - e = 0).
  { unfold fexp, emin, prec, emax. simpl Zdigits2. rewrite Hd. lia. }
  unfold binary_round_aux, shr_fexp. rewrite Hshift.
  cbn [shr shr_record_of_loc shr_m loc_of_shr_record round_nearest_even].
  rewrite Hshift. cbn [shr shr_m].
  destruct (Z.leb_spec e (emax - prec)) as [_|Hbig]; [reflexivity|].
  unfold emax, prec in Hbig. lia.
Qed.

Lemma binary_round_small (s : bool) (p : positive) :
  Z.pos p < 2 ^ 53 ->
  exists m e,
    binary_round prec emax s p 0 = S754_finite s m e /\
    SpecFloat.valid_binary prec emax (S754_finite s m e) = true /\
    e <= 0 /\ Z.pos m = Z.pos p * 2 ^ (- e).
Proof.
  intros Hp. pose proof (digits2_pos_small p Hp) as Hd.
  assert (Hfexp : fexp prec emax (Z.pos (digits2_pos p) + 0)
                  = Z.pos (digits2_pos p) - 53).
  { unfold fexp, emin, prec, emax. lia. }
  unfold binary_round, shl_align. rewrite Hfexp.
  destruct (Z.pos (digits2_pos p) - 53 - 0) as [|k|k] eqn:Hk; try lia.
  - exists p, 0. rewrite binary_round_aux_canonical by lia.
    split; [reflexivity|]. split; [|split; [lia|simpl; lia]].
    unfold SpecFloat.valid_binary, bounded, canonical_mantissa, fexp, emin, prec, emax.
    apply andb_true_iff. split; [apply Z.eqb_eq | apply Z.leb_le]; lia.
  - exists (Pos.iter xO p k), (Z.pos (digits2_pos p) - 53).
    assert (Hdk : Z.pos (digits2_pos (Pos.iter xO p k)) = 53)
      by (rewrite iter_xO_digits; lia).
    rewrite binary_round_aux_canonical by lia.
    split; [reflexivity|]. split; [|split; [lia|]].
    + unfold SpecFloat.valid_binary, bounded, canonical_mantissa, fexp, emin, prec, emax.
      rewrite Hdk.
      apply andb_true_iff. split; [apply Z.eqb_eq | apply Z.leb_le]; lia.
    + rewrite iter_xO_value. f_equal. f_equal. lia.
Qed.

Lemma binary_round_opp (s : bool) (p : positive) (e : Z) :
  binary_round prec emax (negb s) p e = SFopp (binary_round prec emax s p e).
Proof.
  unfold binary_round, binary_round_aux.
  destruct (shl_align _ _ _) as [mz ez].
  destruct (shr_fexp _ _ _ _ _) as [mrs' e'].
  destruct (shr_fexp _ _ _ _ _) as [mrs'' e''].
  destruct (shr_m mrs''); try reflexivity.
  destruct (e'' <=? emax - prec); reflexivity.
Qed.

Lemma int64_to_double_exact (z : Z) :
  Z.abs z < 2 ^ 53 -> represents (int64_to_double z) z.
Proof.
  intros Hz. unfold represents, int64_to_double.
  destruct z as [|p|p]; simpl binary_normalize.
  - reflexivity.
  - destruct (binary_round_small false p Hz) as (m & e & -> & Hvalid & He & Hm).
    rewrite Prim2SF_SF2Prim by exact Hvalid.
    split; [lia|]. rewrite Z.max_l, Z.max_r by lia. simpl Z.abs. lia.
  - destruct (binary_round_small true p Hz) as (m & e & -> & Hvalid & He & Hm).
    rewrite Prim2SF_SF2Prim by exact Hvalid.
    split; [lia|]. rewrite Z.max_l, Z.max_r by lia. simpl Z.abs. lia.
Qed.

Lemma int64_to_double_nonneg (z : Z) :
  0 <= z < 2 ^ 63 -> int64_to_double z = of_uint63 (Uint63.of_Z z).
Proof.
  intros Hz. unfold int64_to_double.
  rewrite <- (SF2Prim_Prim2SF (of_uint63 _)), of_uint63_spec, Uint63.of_Z_spec.
  rewrite Z.mod_small; [reflexivity|]. exact Hz.
Qed.

Lemma int64_to_double_neg (z : Z) :
  - 2 ^ 63 < z < 0 -> int64_to_double z = (- of_uint63 (Uint63.of_Z (- z)))%float.
Proof.
  intros Hz. unfold int64_to_double.
  rewrite <- (SF2Prim_Prim2SF (- _)%float), opp_spec, of_uint63_spec,
    Uint63.of_Z_spec.
  rewrite Z.mod_small by (change Uint63.wB with (2 ^ 63); lia).
  destruct z as [|p|p]; try lia. simpl Z.opp. simpl binary_normalize.
  now rewrite <- (binary_round_opp false).
Qed.

(** ** The remainder node *)

(** C1: for all expressions l and r, evaluating Rem(l, r) evaluates l, then r
    in the environment l leaves; with il and ir the integral parts of the two
    values (fraction discarded, toward zero), both signed 64-bit integers, it
    returns the double that the conversion of the processor makes of the
    truncating remainder of il by ir: exactly that integer when it is below
    2^53 in magnitude, the nearest double otherwise. The remainder has the
    sign of the dividend and a magnitude below the divisor's. In particular
    Rem(7, 2) = 1.0 and Rem(-7, 2) = -1.0. *)
Theorem execute_rem_truncating :
  (forall l r env vl env1 vr env2 il ir,
      exec l env = Returns (vl, env1) ->
      exec r env1 = Returns (vr, env2) ->
      truncates_to vl il ->
      - 2 ^ 63 <= il < 2 ^ 63 ->
      truncates_to vr ir ->
      - 2 ^ 63 <= ir < 2 ^ 63 ->
      ir <> 0 ->
      ~ (il = - 2 ^ 63 /\ ir = -1) ->
      exists v,
        exec (Rem l r) env = Returns (v, env2) /\
        v = (if 0 <=? Z.rem il ir
             then of_uint63 (Uint63.of_Z (Z.rem il ir))
             else (- of_uint63 (Uint63.of_Z (- Z.rem il ir)))%float) /\
        (Z.abs (Z.rem il ir) < 2 ^ 53 -> represents v (Z.rem il ir)) /\
        il = ir * (il ÷ ir) + Z.rem il ir /\
        Z.abs (Z.rem il ir) < Z.abs ir /\
        (0 <= il -> 0 <= Z.rem il ir) /\
        (il <= 0 -> Z.rem il ir <= 0)) /\
  (forall env,
      exec (Rem (Constant 7) (Constant 2)) env = Returns (1%float, env)) /\
  (forall env,
      exec (Rem (Constant (-7)) (Constant 2)) env = Returns ((-1)%float, env)).
Proof.
  split; [|split; reflexivity].
  intros l r env vl env1 vr env2 il ir Hl Hr Hil Hilr Hir Hirr Hnz Hov.
  assert (Hcl : double_to_int64 vl = Some il)
    by (apply double_to_int64_truncates; auto).
  assert (Hcr : double_to_int64 vr = Some ir)
    by (apply double_to_int64_truncates; auto).
  pose proof (Z.rem_bound_abs il ir Hnz) as Hbound.
  exists (int64_to_double (Z.rem il ir)). split; [|split; [|split]].
  - apply execute_rem_returns.
    exists vl, env1, vr, il, ir, (Z.rem il ir).
    repeat split; try assumption. apply int64_rem_Some; [assumption|].
    unfold INT64_MIN. exact Hov.
  - destruct (Z.leb_spec 0 (Z.rem il ir)).
    + apply int64_to_double_nonneg. lia.
    + apply int64_to_double_neg. lia.
  - apply int64_to_double_exact.
  - split; [apply Z.quot_rem'|]. split; [exact Hbound|].
    split; [now apply Z.rem_nonneg | now apply Z.rem_nonpos].
Qed.

Lemma execute_rem_truncating_witness :
  exec (Rem (Constant 7.75) (Constant (-2.5))) (environment_init blank)
  = Returns (1%float, environment_init blank) /\
  exec (Rem (Constant (-7.75)) (Constant 2.5)) (environment_init blank)
  = Returns ((-1)%float, environment_init blank).
Proof.
  split.
  - destruct (proj1 execute_rem_truncating
                (Constant 7.75) (Constant (-2.5)) (environment_init blank)
                7.75%float (environment_init blank)
                (-2.5)%float (environment_init blank) 7 (-2)
                eq_refl eq_refl)
      as (v & Hexec & Hv & _).
    + vm_compute. repeat split; intros H; discriminate H.
    + lia.
    + vm_compute. repeat split; intros H; discriminate H.
    + lia.
    + lia.
    + lia.
    + rewrite Hv in Hexec. exact Hexec.
  - destruct (proj1 execute_rem_truncating
                (Constant (-7.75)) (Constant 2.5) (environment_init blank)
                (-7.75)%float (environment_init blank)
                2.5%float (environment_init blank) (-7) 2
                eq_refl eq_refl)
      as (v & Hexec & Hv & _).
    + vm_compute. repeat split; intros H; discriminate H.
    + lia.
    + vm_compute. repeat split; intros H; discriminate H.
    + lia.
    + lia.
    + lia.
    + rewrite Hv in Hexec. exact Hexec.
Defined.

(** C4, as the code has it: when l evaluates and r evaluates to a value that
    truncates to the 64-bit integer zero, evaluating Rem(l, r) is undefined:
    the remainder is taken with a zero divisor, unguarded, and [execute_rem]
    returns neither a number nor an error value. *)
Theorem execute_rem_zero_divisor l r env vl env1 vr env2 :
  exec l env = Returns (vl, env1) ->
  exec r env1 = Returns (vr, env2) ->
  double_to_int64 vr = Some 0 ->
  exec (Rem l r) env = Undefined.
Proof.
  intros Hl Hr Hz. simpl. unfold execute_rem.
  rewrite (bind_step _ _ _ _ _ Hl), (bind_step _ _ _ _ _ Hr), Hz.
  destruct (double_to_int64 vl); reflexivity.
Qed.

Lemma execute_rem_zero_divisor_witness :
  exec (Rem (Constant 1) (Constant 0.5)) (environment_init blank) = Undefined.
Proof.
  apply (execute_rem_zero_divisor
           (Constant 1) (Constant 0.5) (environment_init blank)
           1%float (environment_init blank) 0.5%float (environment_init blank));
    reflexivity.
Defined.

(** C4, as the spec has it, fails: the divisor 0.0 evaluates and truncates
    to zero, and the evaluation of Rem(1, 0) is undefined behaviour, not a
    reported failure. *)
Lemma zero_divisor_not_reported :
  exec (Constant 0) (environment_init blank)
  = Returns (0%float, environment_init blank) /\
  double_to_int64 0%float = Some 0 /\
  exec (Rem (Constant 1) (Constant 0)) (environment_init blank) = Undefined.
Proof. repeat split. Qed.

(** ** Order of evaluation *)

Lemma exec_store_load i a env va env1 :
  0 <= i < REGISTER_COUNT ->
  env_wf env ->
  exec a env = Returns (va, env1) ->
  let env2 := set_registers env1 (<[Z.to_nat i := va]> (registers env1)) in
  exec (Store i a) env = Returns (va, env2) /\
  exec (Load i) env2 = Returns (va, env2).
Proof.
  intros Hi Hwf Ha env2.
  destruct (exec_env_wf _ _ _ _ Ha Hwf) as [_ Hregs].
  assert (Hset : array_set (registers env1) i va
                 = Some (<[Z.to_nat i := va]> (registers env1))).
  { apply array_set_Some. split; [lia | reflexivity]. }
  split.
  - apply exec_store_returns. exists env1. eauto.
  - apply execute_env_reg_load_returns. split; [|reflexivity].
    apply (array_get_set_eq _ _ _ _ Hset).
Qed.

(** C2: every binary node Add/Sub/Mul/Div/Rem(l, r) runs l to the end, then
    r in the environment l leaves (so a Store in l is seen by a Load in r,
    and not the other way round), and nothing is cached: a node evaluated
    twice runs twice, the second time in the environment the first run
    leaves. *)
Theorem exec_left_before_right :
  (forall l r env,
      exec (Add l r) env = left_then_right l r (fun x y => Some (x + y)%float) env /\
      exec (Sub l r) env = left_then_right l r (fun x y => Some (x - y)%float) env /\
      exec (Mul l r) env = left_then_right l r (fun x y => Some (x * y)%float) env /\
      exec (Div l r) env = left_then_right l r (fun x y => Some (x / y)%float) env /\
      exec (Rem l r) env = left_then_right l r truncating_rem env) /\
  (forall i a env va env1,
      0 <= i < REGISTER_COUNT ->
      env_wf env ->
      exec a env = Returns (va, env1) ->
      exists old env2,
        array_get (registers env) i = Some old /\
        exec (Add (Store i a) (Load i)) env = Returns ((va + va)%float, env2) /\
        exec (Add (Load i) (Store i a)) env = Returns ((old + va)%float, env2)) /\
  (forall e env v1 env1 v2 env2,
      exec e env = Returns (v1, env1) ->
      exec e env1 = Returns (v2, env2) ->
      exec (Add e e) env = Returns ((v1 + v2)%float, env2)) /\
  (exists env2,
      exec (Add counter counter) (environment_init blank)
      = Returns (3%float, env2)).
Proof.
  split; [|split; [|split]].
  - intros l r env. unfold left_then_right, truncating_rem. simpl.
    unfold execute_add, execute_sub, execute_mul, execute_div, execute_rem,
      bind, ret, undefined.
    destruct (exec l env) as [[vl env1]|]; [|repeat split].
    destruct (exec r env1) as [[vr env2]|]; [|repeat split].
    repeat split.
    destruct (double_to_int64 vl) as [il|]; [|reflexivity].
    destruct (double_to_int64 vr) as [ir|]; [|reflexivity].
    destruct (int64_rem il ir); reflexivity.
  - intros i a env va env1 Hi Hwf Ha.
    destruct (exec_store_load i a env va env1 Hi Hwf Ha) as [Hst Hld].
    destruct (array_get_in_bounds (registers env) i) as [old Hold].
    { destruct Hwf as [_ Hregs]. lia. }
    assert (Hold' : exec (Load i) env = Returns (old, env)).
    { apply execute_env_reg_load_returns. auto. }
    exists old. eexists. split; [exact Hold|].
    split; simpl; unfold execute_add;
      change (execute_store (exec a) i) with (exec (Store i a));
      change (execute_load i) with (exec (Load i)).
    + rewrite (bind_step _ _ _ _ _ Hst), (bind_step _ _ _ _ _ Hld).
      reflexivity.
    + rewrite (bind_step _ _ _ _ _ Hold'), (bind_step _ _ _ _ _ Hst).
      reflexivity.
  - intros e env v1 env1 v2 env2 H1 H2. simpl. unfold execute_add.
    rewrite (bind_step _ _ _ _ _ H1), (bind_step _ _ _ _ _ H2). reflexivity.
  - eexists. vm_compute. reflexivity.
Qed.

Lemma exec_left_before_right_witness :
  exists env2,
    exec (Add (Store 5 (Constant 2)) (Load 5)) (environment_init blank)
    = Returns (4%float, env2) /\
    exec (Add (Load 5) (Store 5 (Constant 2))) (environment_init blank)
    = Returns (2%float, env2).
Proof.
  destruct (proj1 (proj2 exec_left_before_right)
              5 (Constant 2) (environment_init blank) 2%float
              (environment_init blank))
    as (old & env2 & Hold & H1 & H2).
  - unfold REGISTER_COUNT. lia.
  - exact environment_init_wf.
  - reflexivity.
  - vm_compute in Hold. injection Hold as <-.
    exists env2. split; [exact H1 | exact H2].
Defined.

(** ** Registers *)

(** C3: for a register index r in 0..9 and an expression a that evaluates to
    v, Store(r, a) evaluates a, writes v into register r of the environment
    a leaves and returns v; Load(r) evaluated next in that environment
    returns v and leaves the environment alone. *)
Theorem execute_store_then_load r a env v env1 :
  0 <= r < REGISTER_COUNT ->
  env_wf env ->
  exec a env = Returns (v, env1) ->
  let env2 := set_registers env1 (<[Z.to_nat r := v]> (registers env1)) in
  exec (Store r a) env = Returns (v, env2) /\
  registers env2 !! Z.to_nat r = Some v /\
  (forall j, j <> r -> array_get (registers env2) j = array_get (registers env1) j) /\
  inputs env2 = inputs env1 /\
  exec (Load r) env2 = Returns (v, env2) /\
  (x <- exec (Store r a) ;; y <- exec (Load r) ;; ret (x, y)) env
  = Returns ((v, v), env2).
Proof.
  intros Hr Hwf Ha env2.
  destruct (exec_store_load r a env v env1 Hr Hwf Ha) as [Hst Hld].
  fold env2 in Hst, Hld.
  destruct (exec_env_wf _ _ _ _ Ha Hwf) as [_ Hregs].
  split; [exact Hst|]. split.
  { apply list_lookup_insert_eq. lia. }
  split.
  { intros j Hj. apply (array_get_set_ne (registers env1) _ r j v); [|exact Hj].
    apply array_set_Some. split; [lia | reflexivity]. }
  split; [reflexivity|]. split; [exact Hld|].
  rewrite (bind_step _ _ _ _ _ Hst), (bind_step _ _ _ _ _ Hld). reflexivity.
Qed.

Lemma execute_store_then_load_witness :
  (x <- exec (Store 5 (Sub (Ident "x") (Constant 1))) ;;
   y <- exec (Load 5) ;; ret (x, y))
    (set_inputs (environment_init blank)
       (<[23%nat := 4%float]> (inputs (environment_init blank))))
  = Returns ((3%float, 3%float),
             {| inputs := <[23%nat := 4%float]> (replicate 26 0%float);
                registers := <[5%nat := 3%float]> (replicate 10 0%float) |}).
Proof.
  apply (execute_store_then_load 5 (Sub (Ident "x") (Constant 1))
           (set_inputs (environment_init blank)
              (<[23%nat := 4%float]> (inputs (environment_init blank))))
           3%float
           (set_inputs (environment_init blank)
              (<[23%nat := 4%float]> (inputs (environment_init blank))))).
  - unfold REGISTER_COUNT. lia.
  - split; reflexivity.
  - reflexivity.
Defined.

(** C7: an evaluation that returns leaves every input slot as it was and
    keeps the ten register slots; a register whose value differs afterwards
    is the target of a Store node of the tree. *)
Theorem exec_frame e env v env' :
  exec e env = Returns (v, env') ->
  inputs env' = inputs env /\
  length (registers env') = length (registers env) /\
  (env_wf env -> env_wf env') /\
  (forall j, array_get (registers env') j <> array_get (registers env) j ->
             In j (store_targets e)).
Proof.
  intros H. destruct (exec_preserves e _ _ _ H) as (Hi & Hn & Hr).
  split; [exact Hi|]. split; [exact Hn|].
  split; [exact (exec_env_wf _ _ _ _ H)|].
  intros j Hj. destruct (in_dec Z.eq_dec j (store_targets e)) as [Hin|Hout].
  - exact Hin.
  - contradiction (Hj (Hr j Hout)).
Qed.

Lemma exec_frame_witness :
  inputs {| inputs := <[23%nat := 3%float]> (replicate 26 0%float);
            registers := <[5%nat := 2%float]> (replicate 10 0%float) |}
  = inputs (set_inputs (environment_init blank)
              (<[23%nat := 3%float]> (inputs (environment_init blank)))) /\
  store_targets program_19 = [5].
Proof.
  split; [|reflexivity].
  apply (exec_frame program_19
           (set_inputs (environment_init blank)
              (<[23%nat := 3%float]> (inputs (environment_init blank))))
           (2 / sqrt 5)%float
           {| inputs := <[23%nat := 3%float]> (replicate 26 0%float);
              registers := <[5%nat := 2%float]> (replicate 10 0%float) |}).
  vm_compute. reflexivity.
Defined.

(** ** Square root *)

Lemma sqrt_negative v : (v <? 0)%float = true -> sqrt v = nan.
Proof.
  intros Hlt. rewrite ltb_spec in Hlt.
  apply Prim2SF_inj. rewrite sqrt_spec.
  change (Prim2SF 0) with (S754_zero false) in Hlt.
  change (Prim2SF nan) with S754_nan.
  destruct (Prim2SF v) as [s| [|] | | [|] m e]; try discriminate Hlt;
    reflexivity.
Qed.

(** C8: for every expression a that evaluates to v, Sqrt(a) returns the IEEE
    square root of v, whatever v is; for v below zero that is not-a-number,
    returned like any other value; Sqrt(-1) is not-a-number and
    Sqrt(16) = 4.0. *)
Theorem execute_sqrt_no_guard :
  (forall a env v env1,
      exec a env = Returns (v, env1) ->
      exec (Sqrt a) env = Returns (sqrt v, env1) /\
      Prim2SF (sqrt v) = SFsqrt prec emax (Prim2SF v) /\
      ((v <? 0)%float = true -> sqrt v = nan /\ is_nan (sqrt v) = true)) /\
  (forall env, exec (Sqrt (Constant (-1))) env = Returns (nan, env)) /\
  (forall env, exec (Sqrt (Constant 16)) env = Returns (4%float, env)).
Proof.
  split; [|split; reflexivity].
  intros a env v env1 Ha. split; [|split].
  - simpl. unfold execute_sqrt. rewrite (bind_step _ _ _ _ _ Ha). reflexivity.
  - apply sqrt_spec.
  - intros Hneg. rewrite (sqrt_negative v Hneg). split; reflexivity.
Qed.

Lemma execute_sqrt_no_guard_witness :
  exec (Sqrt (Sub (Constant 1) (Constant 5))) (environment_init blank)
  = Returns (nan, environment_init blank).
Proof.
  destruct (proj1 execute_sqrt_no_guard
              (Sub (Constant 1) (Constant 5)) (environment_init blank)
              (-4)%float (environment_init blank) eq_refl)
    as (Hsqrt & _ & Hnan).
  destruct (Hnan eq_refl) as [Heq _].
  rewrite Heq in Hsqrt. exact Hsqrt.
Defined.

(** ** Identifiers *)

(** C9, as the code has it: for a letter c between 'a' and 'z',
    Identifier(c) reads input slot c - 'a', an index in 0..25 that is in
    bounds; for any other c the index c - 'a' is out of bounds and the read
    is undefined: [execute_env_read] has no check and reports nothing. *)
Theorem execute_ident_bounds c env :
  env_wf env ->
  (char_code "a" <= char_code c <= char_code "z" ->
   0 <= char_code c - char_code "a" <= 25 /\
   exists v, inputs env !! Z.to_nat (char_code c - char_code "a") = Some v /\
             exec (Ident c) env = Returns (v, env)) /\
  (~ (char_code "a" <= char_code c <= char_code "z") ->
   array_get (inputs env) (char_code c - char_code "a") = None /\
   exec (Ident c) env = Undefined).
Proof.
  intros [Hin _]. change ENV_SIZE with 26 in Hin.
  change (char_code "a") with 97. change (char_code "z") with 122.
  split.
  - intros Hc. split; [lia|].
    destruct (array_get_in_bounds (inputs env) (char_code c - 97)) as [v Hv];
      [lia|].
    exists v. split; [now apply array_get_Some in Hv|].
    apply execute_env_read_returns. auto.
  - intros Hc.
    assert (Hnone : array_get (inputs env) (char_code c - 97) = None).
    { apply array_get_out_of_bounds. lia. }
    split; [exact Hnone|].
    simpl. unfold execute_ident, execute_env_read, bind, get.
    change (char_code "a") with 97. rewrite Hnone. reflexivity.
Qed.

Lemma execute_ident_bounds_witness :
  exec (Ident "x") (environment_init blank)
  = Returns (0%float, environment_init blank).
Proof.
  destruct (proj1 (execute_ident_bounds "x" (environment_init blank)
                     environment_init_wf))
    as (_ & v & Hv & Hx).
  - change (char_code "a") with 97. change (char_code "z") with 122.
    change (char_code "x") with 120. lia.
  - vm_compute in Hv. injection Hv as <-. exact Hx.
Defined.

(** C9, as the spec has it, fails: 'A' is outside 'a'..'z', the index
    'A' - 'a' = -32 is out of bounds, and the evaluation is undefined
    behaviour, not a reported failure. *)
Lemma ident_out_of_range_not_reported :
  env_wf (environment_init blank) /\
  char_code "A" - char_code "a" = -32 /\
  exec (Ident "A") (environment_init blank) = Undefined.
Proof. repeat split. Qed.

(** ** The node pool *)

Lemma allocate_pop (st : pool) (c : nat) (next : chunk_ptr) :
  freelist_head st = Some c ->
  freelist_memory st !! c = Some next ->
  allocate st
  = Returns (Some c, {| freelist_memory := freelist_memory st;
                        freelist_head := next |}).
Proof.
  intros Hhead Hnext. unfold allocate, bind, get, put, ret.
  rewrite Hhead, Hnext. reflexivity.
Qed.

Lemma allocate_null (st : pool) :
  freelist_head st = NULL -> allocate st = Returns (NULL, st).
Proof.
  intros Hhead. unfold allocate, bind, get, ret. rewrite Hhead. reflexivity.
Qed.

Lemma deallocate_push (st : pool) (c : nat) :
  (c < length (freelist_memory st))%nat ->
  deallocate (Some c) st
  = Returns (tt, {| freelist_memory := <[c := freelist_head st]> (freelist_memory st);
                    freelist_head := Some c |}).
Proof.
  intros Hc. unfold deallocate, bind, get, put.
  destruct (decide (c < length (freelist_memory st))%nat); [reflexivity | lia].
Qed.

Lemma freelist_walk_insert (fuel : nat) (mem : list chunk_ptr)
      (head x : chunk_ptr) (c : nat) :
  ~ In c (freelist_walk fuel mem head) ->
  freelist_walk fuel (<[c := x]> mem) head = freelist_walk fuel mem head.
Proof.
  revert head. induction fuel as [|fuel IH]; intros head Hout; [reflexivity|].
  destruct head as [h|]; [|reflexivity]. simpl in *.
  assert (Hne : c <> h) by (intros ->; apply Hout; now left).
  rewrite list_lookup_insert_ne by assumption.
  destruct (mem !! h) as [next|]; [|reflexivity].
  rewrite IH; [reflexivity|]. intros Hin. apply Hout. now right.
Qed.

Section PoolFacts.
Variable N : nat.

Lemma freelist_init_loop_length (idx : list nat) (mem : list chunk_ptr) :
  length (fold_left (freelist_init_step N) idx mem) = length mem.
Proof.
  revert mem. induction idx as [|a idx IH]; intros mem; simpl; [reflexivity|].
  rewrite IH. apply length_insert.
Qed.

Lemma freelist_init_loop_skip (idx : list nat) (mem : list chunk_ptr) (i : nat) :
  ~ In i idx -> fold_left (freelist_init_step N) idx mem !! i = mem !! i.
Proof.
  revert mem. induction idx as [|a idx IH]; intros mem Hout; simpl.
  - reflexivity.
  - rewrite IH by (intros Hin; apply Hout; now right).
    apply list_lookup_insert_ne. intros ->. apply Hout. now left.
Qed.

Lemma freelist_init_loop_lookup (idx : list nat) (mem : list chunk_ptr) (i : nat) :
  In i idx -> (i < length mem)%nat ->
  fold_left (freelist_init_step N) idx mem !! i = Some (initial_next N i).
Proof.
  revert mem. induction idx as [|a idx IH]; intros mem Hin Hi; simpl.
  - contradiction.
  - destruct (in_dec Nat.eq_dec i idx) as [Hlater|Hlast].
    + apply IH; [assumption|].
      unfold freelist_init_step. now rewrite length_insert.
    + destruct Hin as [->|Hin]; [|contradiction].
      rewrite freelist_init_loop_skip by assumption.
      now apply list_lookup_insert_eq.
Qed.

Lemma freelist_init_returns (st0 : pool) :
  (0 < N)%nat ->
  freelist_init N st0 = Returns (tt, drawn N (freelist_memory st0) 0).
Proof.
  intros HN. unfold freelist_init, drawn, bind, get, put.
  destruct (decide (0 < N)%nat); [reflexivity | lia].
Qed.

Lemma drawn_lookup (mem : list chunk_ptr) (i j : nat) :
  length mem = N -> (i < N)%nat ->
  freelist_memory (drawn N mem j) !! i = Some (initial_next N i).
Proof.
  intros Hlen Hi. simpl.
  apply freelist_init_loop_lookup; [apply in_seq|]; lia.
Qed.

Lemma drawn_memory (mem : list chunk_ptr) (j k : nat) :
  freelist_memory (drawn N mem j) = freelist_memory (drawn N mem k).
Proof. reflexivity. Qed.

Lemma drawn_length (mem : list chunk_ptr) (j : nat) :
  length (freelist_memory (drawn N mem j)) = length mem.
Proof. apply freelist_init_loop_length. Qed.

Lemma allocate_drawn (mem : list chunk_ptr) (j : nat) :
  length mem = N -> (j < N)%nat ->
  allocate (drawn N mem j) = Returns (Some j, drawn N mem (S j)).
Proof.
  intros Hlen Hj.
  rewrite (allocate_pop (drawn N mem j) j (initial_next N j)).
  - unfold drawn, initial_next. simpl freelist_memory.
    destruct (decide (j = N - 1)%nat), (decide (S j < N)%nat);
      try lia; try reflexivity.
    replace (j + 1)%nat with (S j) by lia. reflexivity.
  - simpl. destruct (decide (j < N)%nat); [reflexivity | lia].
  - now apply drawn_lookup.
Qed.

Lemma allocate_exhausted (mem : list chunk_ptr) (j : nat) :
  (N <= j)%nat ->
  allocate (drawn N mem j) = Returns (NULL, drawn N mem j).
Proof.
  intros Hj. apply allocate_null. simpl.
  destruct (decide (j < N)%nat); [lia | reflexivity].
Qed.

Lemma allocate_times_drawn (mem : list chunk_ptr) (k j : nat) :
  length mem = N -> (j + k <= N)%nat ->
  allocate_times k (drawn N mem j)
  = Returns (fmap Some (seq j k), drawn N mem (j + k)).
Proof.
  intros Hlen. revert j. induction k as [|k IH]; intros j Hjk.
  - simpl. unfold ret. now rewrite Nat.add_0_r.
  - simpl allocate_times.
    rewrite (bind_step _ _ _ _ _ (allocate_drawn mem j Hlen ltac:(lia))).
    rewrite (bind_step _ _ _ _ _ (IH (S j) ltac:(lia))).
    replace (S j + k)%nat with (j + S k)%nat by lia. reflexivity.
Qed.

Lemma allocate_times_exhausted (mem : list chunk_ptr) (m : nat) :
  allocate_times m (drawn N mem N) = Returns (replicate m NULL, drawn N mem N).
Proof.
  induction m as [|m IH]; [reflexivity|]. simpl allocate_times.
  rewrite (bind_step _ _ _ _ _ (allocate_exhausted mem N (Nat.le_refl N))).
  rewrite (bind_step _ _ _ _ _ IH). reflexivity.
Qed.
End PoolFacts.

Lemma allocate_times_app (a b : nat) (st : pool) :
  allocate_times (a + b) st =
  (xs <- allocate_times a ;; ys <- allocate_times b ;; ret (xs ++ ys)) st.
Proof.
  revert st. induction a as [|a IH]; intros st; simpl.
  - unfold bind, ret. simpl. destruct (allocate_times b st) as [[ys st']|];
      reflexivity.
  - unfold bind. destruct (allocate st) as [[c st1]|]; [|reflexivity].
    rewrite IH. unfold bind, ret.
    destruct (allocate_times a st1) as [[xs st2]|]; [|reflexivity].
    destruct (allocate_times b st2) as [[ys st3]|]; reflexivity.
Qed.

(** C5: in a pool of N chunks that [freelist_init] has just set up, N calls
    of [allocate] in a row each return the chunk at the head of the freelist
    (a chunk of the pool, not NULL, never the same one twice) and move the
    head to that chunk's link; the call after them returns NULL, and so does
    every later one; the pool still has its N chunks. *)
Theorem allocate_until_exhausted (N : nat) (st0 : pool) :
  (0 < N)%nat ->
  pool_wf N st0 ->
  exists st cs st_N,
    freelist_init N st0 = Returns (tt, st) /\
    allocate_times N st = Returns (cs, st_N) /\
    length cs = N /\
    NoDup cs /\
    (forall k, (k < N)%nat ->
       exists cs_k st_k c next,
         allocate_times k st = Returns (cs_k, st_k) /\
         freelist_head st_k = Some c /\
         freelist_memory st_k !! c = Some next /\
         (c < N)%nat /\
         cs !! k = Some (Some c) /\
         allocate st_k
         = Returns (Some c, {| freelist_memory := freelist_memory st_k;
                               freelist_head := next |})) /\
    freelist_head st_N = NULL /\
    allocate st_N = Returns (NULL, st_N) /\
    allocate_times (N + 1) st = Returns (cs ++ [NULL], st_N) /\
    (forall m, allocate_times m st_N = Returns (replicate m NULL, st_N)) /\
    pool_wf N st_N.
Proof.
  intros HN Hwf. unfold pool_wf in *.
  set (mem := freelist_memory st0) in *.
  exists (drawn N mem 0), (fmap Some (seq 0 N)), (drawn N mem N).
  pose proof (allocate_times_drawn N mem N 0 Hwf ltac:(lia)) as Hall.
  rewrite Nat.add_0_l in Hall.
  pose proof (allocate_exhausted N mem N (Nat.le_refl N)) as Hex.
  split; [now apply freelist_init_returns|].
  split; [exact Hall|].
  split; [now rewrite length_fmap, length_seq|].
  split.
  { apply NoDup_fmap_2; [|apply NoDup_seq]. intros x y [= ->]. reflexivity. }
  split.
  { intros k Hk.
    exists (fmap Some (seq 0 k)), (drawn N mem k), k, (initial_next N k).
    pose proof (allocate_times_drawn N mem k 0 Hwf ltac:(lia)) as Hk'.
    rewrite Nat.add_0_l in Hk'.
    assert (Hhead : freelist_head (drawn N mem k) = Some k).
    { simpl. destruct (decide (k < N)%nat); [reflexivity | lia]. }
    assert (Hnext : freelist_memory (drawn N mem k) !! k = Some (initial_next N k))
      by now apply drawn_lookup.
    split; [exact Hk'|]. split; [exact Hhead|]. split; [exact Hnext|].
    split; [exact Hk|]. split.
    - rewrite list_lookup_fmap, lookup_seq_lt by assumption. reflexivity.
    - now apply allocate_pop. }
  split.
  { simpl. destruct (decide (N < N)%nat); [lia | reflexivity]. }
  split; [exact Hex|].
  split.
  { rewrite allocate_times_app. rewrite (bind_step _ _ _ _ _ Hall).
    simpl allocate_times.
    rewrite (bind_step _ _ _ _ _
               (bind_step _ _ _ _ _ Hex : allocate_times 1 _ = _)).
    reflexivity. }
  split; [apply allocate_times_exhausted|].
  now rewrite drawn_length.
Qed.

Lemma allocate_until_exhausted_witness :
  allocate_times 4 (drawn 3 (replicate 3 NULL) 0)
  = Returns ([Some 0; Some 1; Some 2; NULL]%nat, drawn 3 (replicate 3 NULL) 3).
Proof.
  destruct (allocate_until_exhausted 3 (blank_pool 3))
    as (st & cs & st_N & Hinit & Hall & _ & _ & _ & _ & _ & Hnext & _).
  - lia.
  - reflexivity.
  - vm_compute in Hinit. injection Hinit as <-.
    vm_compute in Hall. injection Hall as <- <-.
    exact Hnext.
Defined.

Lemma initial_next_head (N j : nat) :
  (j < N)%nat ->
  initial_next N j = if decide (S j < N)%nat then Some (S j) else NULL.
Proof.
  intros Hj. unfold initial_next.
  destruct (decide (j = N - 1)%nat), (decide (S j < N)%nat);
    try lia; try reflexivity.
  replace (j + 1)%nat with (S j) by lia. reflexivity.
Qed.

Lemma freelist_walk_drawn (N : nat) (mem : list chunk_ptr) (k j : nat) :
  length mem = N -> (j + k <= N)%nat ->
  freelist_walk k (freelist_memory (drawn N mem j)) (freelist_head (drawn N mem j))
  = seq j k.
Proof.
  intros Hlen. revert j. induction k as [|k IH]; intros j Hjk; [reflexivity|].
  specialize (IH (S j) ltac:(lia)).
  change (freelist_memory (drawn N mem (S j)))
    with (freelist_memory (drawn N mem j)) in IH.
  pose proof (drawn_lookup N mem j j Hlen ltac:(lia)) as Hnext.
  simpl freelist_head in *.
  destruct (decide (j < N)%nat); [|lia].
  simpl freelist_walk. simpl in Hnext. rewrite Hnext.
  rewrite initial_next_head by assumption. simpl in IH. rewrite IH.
  reflexivity.
Qed.

(** C10: after [freelist_init] the head of the freelist is chunk 0, chunk i
    links to chunk i + 1 and the last chunk, 9999, to nothing; so k calls of
    [allocate] in a row, for any k up to 10000, return the chunks
    0, 1, ..., k - 1 in this order. *)
Theorem freelist_init_ascending (st0 : pool) :
  pool_wf MAX_EXPR_NODES st0 ->
  exists st,
    freelist_init MAX_EXPR_NODES st0 = Returns (tt, st) /\
    Z.of_nat (length (freelist_memory st)) = 10000 /\
    freelist_head st = Some 0%nat /\
    (forall i, Z.of_nat i < 9999 ->
               freelist_memory st !! i = Some (Some (i + 1)%nat)) /\
    freelist_memory st !! Z.to_nat 9999 = Some NULL /\
    freelist_walk (Z.to_nat 10000) (freelist_memory st) (freelist_head st)
    = seq 0 (Z.to_nat 10000) /\
    (forall k, Z.of_nat k <= 10000 ->
       exists st_k,
         allocate_times k st = Returns (fmap Some (seq 0 k), st_k) /\
         freelist_memory st_k = freelist_memory st /\
         freelist_head st_k = if decide (Z.of_nat k < 10000) then Some k else NULL).
Proof.
  intros Hwf. unfold pool_wf in Hwf.
  assert (HN : Z.of_nat MAX_EXPR_NODES = 10000) by (unfold MAX_EXPR_NODES; lia).
  set (mem := freelist_memory st0) in *.
  exists (drawn MAX_EXPR_NODES mem 0).
  split; [apply freelist_init_returns; lia|].
  split; [rewrite drawn_length; lia|].
  split.
  { simpl. destruct (decide (0 < MAX_EXPR_NODES)%nat); [reflexivity | lia]. }
  split.
  { intros i Hi. rewrite drawn_lookup by (assumption || lia).
    unfold initial_next.
    destruct (decide (i = MAX_EXPR_NODES - 1)%nat); [lia | reflexivity]. }
  split.
  { rewrite drawn_lookup by (assumption || lia).
    unfold initial_next.
    destruct (decide (Z.to_nat 9999 = MAX_EXPR_NODES - 1)%nat);
      [reflexivity | lia]. }
  split.
  { change (Z.to_nat 10000) with MAX_EXPR_NODES.
    apply freelist_walk_drawn; [assumption | lia]. }
  intros k Hk. exists (drawn MAX_EXPR_NODES mem k).
  split; [|split].
  - apply (allocate_times_drawn MAX_EXPR_NODES mem k 0 Hwf). lia.
  - apply drawn_memory.
  - simpl. destruct (decide (k < MAX_EXPR_NODES)%nat),
      (decide (Z.of_nat k < 10000)); try lia; reflexivity.
Qed.

Lemma freelist_init_ascending_witness :
  exists st,
    freelist_init MAX_EXPR_NODES (blank_pool MAX_EXPR_NODES) = Returns (tt, st) /\
    freelist_head st = Some 0%nat /\
    freelist_memory st !! 0%nat = Some (Some 1%nat) /\
    exists st_3,
      allocate_times 3 st = Returns ([Some 0; Some 1; Some 2]%nat, st_3).
Proof.
  destruct (freelist_init_ascending (blank_pool MAX_EXPR_NODES))
    as (st & Hinit & _ & Hhead & Hlink & _ & _ & Hall).
  - apply length_replicate.
  - exists st. split; [exact Hinit|]. split; [exact Hhead|].
    split; [apply (Hlink 0%nat); lia|].
    destruct (Hall 3%nat) as (st_3 & H3 & _); [lia|].
    exists st_3. exact H3.
Defined.

(** C6: for every pool and every chunk e of it, [deallocate] puts e at the
    head of the freelist, linked to the former head, and the [allocate] that
    follows returns e and puts the former head back; the links of the other
    chunks are as before, and so is the freelist that starts at the head
    unless e was on it already. *)
Theorem deallocate_then_allocate (st : pool) (e : nat) :
  (e < length (freelist_memory st))%nat ->
  exists st1 st2,
    deallocate (Some e) st = Returns (tt, st1) /\
    freelist_head st1 = Some e /\
    freelist_memory st1 !! e = Some (freelist_head st) /\
    allocate st1 = Returns (Some e, st2) /\
    (_ <- deallocate (Some e) ;; allocate) st = Returns (Some e, st2) /\
    freelist_head st2 = freelist_head st /\
    length (freelist_memory st2) = length (freelist_memory st) /\
    (forall j, j <> e -> freelist_memory st2 !! j = freelist_memory st !! j) /\
    (forall fuel,
        ~ In e (freelist_walk fuel (freelist_memory st) (freelist_head st)) ->
        freelist_walk fuel (freelist_memory st2) (freelist_head st2)
        = freelist_walk fuel (freelist_memory st) (freelist_head st)).
Proof.
  intros He.
  set (st1 := {| freelist_memory := <[e := freelist_head st]> (freelist_memory st);
                 freelist_head := Some e |}).
  set (st2 := {| freelist_memory := freelist_memory st1;
                 freelist_head := freelist_head st |}).
  assert (Hd : deallocate (Some e) st = Returns (tt, st1))
    by now apply deallocate_push.
  assert (Hlink : freelist_memory st1 !! e = Some (freelist_head st))
    by now apply list_lookup_insert_eq.
  assert (Ha : allocate st1 = Returns (Some e, st2))
    by now apply allocate_pop.
  exists st1, st2.
  split; [exact Hd|]. split; [reflexivity|]. split; [exact Hlink|].
  split; [exact Ha|].
  split; [now rewrite (bind_step _ _ _ _ _ Hd)|].
  split; [reflexivity|].
  split; [apply length_insert|].
  split.
  - intros j Hj. simpl. now apply list_lookup_insert_ne.
  - intros fuel Hout. simpl. now apply freelist_walk_insert.
Qed.

Lemma deallocate_then_allocate_witness :
  (_ <- deallocate (Some 1%nat) ;; allocate)
    {| freelist_memory := [NULL; Some 0%nat; NULL]; freelist_head := Some 2%nat |}
  = Returns (Some 1%nat,
             {| freelist_memory := [NULL; Some 2%nat; NULL];
                freelist_head := Some 2%nat |}).
Proof.
  destruct (deallocate_then_allocate
              {| freelist_memory := [NULL; Some 0%nat; NULL];
                 freelist_head := Some 2%nat |} 1)
    as (st1 & st2 & Hd & _ & _ & Ha & Hda & _).
  - simpl. lia.
  - vm_compute in Hd. injection Hd as <-.
    vm_compute in Ha. injection Ha as <-. exact Hda.
Defined.


(** * Further properties of the evaluator *)

(** ** [environment_init] *)

Lemma fold_insert_length {A : Type} (g : nat -> A) (idx : list nat) (l : list A) :
  length (fold_left (fun m j => <[j := g j]> m) idx l) = length l.
Proof.
  revert l. induction idx as [|a idx IH]; intros l; simpl; [reflexivity|].
  rewrite IH. apply length_insert.
Qed.

Lemma fold_insert_skip {A : Type} (g : nat -> A) (idx : list nat) (l : list A) i :
  ~ In i idx -> fold_left (fun m j => <[j := g j]> m) idx l !! i = l !! i.
Proof.
  revert l. induction idx as [|a idx IH]; intros l Hout; simpl; [reflexivity|].
  rewrite IH by (intros Hin; apply Hout; now right).
  apply list_lookup_insert_ne. intros ->. apply Hout. now left.
Qed.

Lemma fold_insert_lookup {A : Type} (g : nat -> A) (idx : list nat) (l : list A) i :
  In i idx -> (i < length l)%nat ->
  fold_left (fun m j => <[j := g j]> m) idx l !! i = Some (g i).
Proof.
  revert l. induction idx as [|a idx IH]; intros l Hin Hi; simpl; [contradiction|].
  destruct (in_dec Nat.eq_dec i idx) as [Hlater|Hlast].
  - apply IH; [assumption | now rewrite length_insert].
  - destruct Hin as [->|Hin]; [|contradiction].
    rewrite fold_insert_skip by assumption. now apply list_lookup_insert_eq.
Qed.

Lemma fold_insert_all {A : Type} (x : A) (n : nat) (l : list A) :
  length l = n ->
  fold_left (fun m j => <[j := x]> m) (seq 0 n) l = replicate n x.
Proof.
  intros Hlen. apply list_eq. intros i.
  destruct (Nat.lt_ge_cases i n) as [Hi|Hi].
  - rewrite (fold_insert_lookup (fun _ => x)) by (rewrite ?in_seq; lia).
    symmetry. now apply lookup_replicate_2.
  - rewrite !lookup_ge_None_2; [reflexivity | |].
    + rewrite length_replicate. lia.
    + rewrite (fold_insert_length (fun _ => x)). lia.
Qed.

Lemma init_inputs_loop (idx : list nat) (env : environment) :
  fold_left (fun e i => set_inputs e (<[i := 0%float]> (inputs e))) idx env
  = {| inputs := fold_left (fun m j => <[j := 0%float]> m) idx (inputs env);
       registers := registers env |}.
Proof.
  revert env. induction idx as [|a idx IH]; intros env; simpl.
  - now destruct env.
  - rewrite IH. reflexivity.
Qed.

Lemma init_registers_loop (idx : list nat) (env : environment) :
  fold_left (fun e i => set_registers e (<[i := 0%float]> (registers e))) idx env
  = {| inputs := inputs env;
       registers := fold_left (fun m j => <[j := 0%float]> m) idx (registers env) |}.
Proof.
  revert env. induction idx as [|a idx IH]; intros env; simpl.
  - now destruct env.
  - rewrite IH. reflexivity.
Qed.

(** X1: whatever the slots held before, [environment_init] leaves every one
    of the 26 inputs and the 10 registers at 0.0; the arrays keep their
    sizes, and every register and every letter then reads 0.0. *)
Theorem environment_init_zeroes (env : environment) :
  env_wf env ->
  environment_init env
  = {| inputs := replicate 26 0%float; registers := replicate 10 0%float |} /\
  env_wf (environment_init env) /\
  (forall r, 0 <= r < REGISTER_COUNT ->
             exec (Load r) (environment_init env)
             = Returns (0%float, environment_init env)) /\
  (forall c, char_code "a" <= char_code c <= char_code "z" ->
             exec (Ident c) (environment_init env)
             = Returns (0%float, environment_init env)).
Proof.
  intros [Hi Hr].
  assert (Heq : environment_init env
                = {| inputs := replicate 26 0%float;
                     registers := replicate 10 0%float |}).
  { unfold environment_init. rewrite init_registers_loop, init_inputs_loop.
    cbn [inputs registers].
    rewrite (fold_insert_all 0%float (Z.to_nat ENV_SIZE)) by lia.
    rewrite (fold_insert_all 0%float (Z.to_nat REGISTER_COUNT)) by lia.
    reflexivity. }
  rewrite Heq. split; [reflexivity|]. split; [split; reflexivity|]. split.
  - intros r Hrange. apply execute_env_reg_load_returns. split; [|reflexivity].
    apply array_get_Some. split; [lia|]. cbn [registers].
    apply lookup_replicate_2. unfold REGISTER_COUNT in Hrange. lia.
  - intros c Hc. apply execute_env_read_returns. split; [|reflexivity].
    change (char_code "a") with 97 in *. change (char_code "z") with 122 in Hc.
    apply array_get_Some. split; [lia|]. cbn [inputs].
    apply lookup_replicate_2. lia.
Qed.

Lemma environment_init_zeroes_witness :
  environment_init
    {| inputs := replicate 26 7.5%float; registers := replicate 10 nan |}
  = {| inputs := replicate 26 0%float; registers := replicate 10 0%float |}.
Proof.
  apply (environment_init_zeroes
           {| inputs := replicate 26 7.5%float; registers := replicate 10 nan |}).
  split; reflexivity.
Defined.

(** ** Register bounds *)

(** X2: Load(r) with r among the ten registers returns the value of
    register r and leaves the environment as it was; with any other r the
    read is out of bounds and the evaluation is undefined. *)
Theorem execute_load_bounds (r : Z) (env : environment) :
  env_wf env ->
  (0 <= r < REGISTER_COUNT ->
   exists v, registers env !! Z.to_nat r = Some v /\
             exec (Load r) env = Returns (v, env)) /\
  (~ (0 <= r < REGISTER_COUNT) -> exec (Load r) env = Undefined).
Proof.
  intros [_ Hregs]. split.
  - intros Hr.
    destruct (array_get_in_bounds (registers env) r) as [v Hv]; [lia|].
    exists v. split; [now apply array_get_Some in Hv|].
    apply execute_env_reg_load_returns. auto.
  - intros Hr. simpl.
    unfold execute_load, execute_env_reg_load, bind, get.
    rewrite array_get_out_of_bounds by lia. reflexivity.
Qed.

Lemma execute_load_bounds_witness :
  exec (Load 9) (environment_init blank)
  = Returns (0%float, environment_init blank) /\
  exec (Load 10) (environment_init blank) = Undefined /\
  exec (Load (-1)) (environment_init blank) = Undefined.
Proof.
  destruct (execute_load_bounds 9 (environment_init blank) environment_init_wf)
    as [Hin _].
  destruct (execute_load_bounds 10 (environment_init blank) environment_init_wf)
    as [_ Hhigh].
  destruct (execute_load_bounds (-1) (environment_init blank) environment_init_wf)
    as [_ Hlow].
  split; [|split].
  - destruct Hin as (v & Hv & Hload); [unfold REGISTER_COUNT; lia|].
    vm_compute in Hv. injection Hv as <-. exact Hload.
  - apply Hhigh. unfold REGISTER_COUNT. lia.
  - apply Hlow. lia.
Defined.

(** X3: on an environment of the declared sizes, Store(r, a) is undefined
    exactly when a is, or when r is not one of the ten registers: the
    argument is evaluated first and the out-of-bounds write is not
    checked. *)
Theorem execute_store_undefined_iff (r : Z) (a : expr) (env : environment) :
  env_wf env ->
  (exec (Store r a) env = Undefined <->
   exec a env = Undefined \/ ~ (0 <= r < REGISTER_COUNT)).
Proof.
  intros Hwf. simpl. unfold execute_store, bind.
  destruct (exec a env) as [[v env1]|] eqn:Ha.
  - destruct (exec_env_wf _ _ _ _ Ha Hwf) as [_ Hregs].
    unfold execute_env_reg_store, bind, get, put, ret, undefined.
    destruct (array_set (registers env1) r v) as [regs|] eqn:Hset.
    + apply array_set_Some in Hset as [Hr _].
      split; [discriminate | intros [H|H]; [discriminate | lia]].
    + split; [|reflexivity]. intros _. right. intros Hr.
      assert (Hsome : array_set (registers env1) r v
                      = Some (<[Z.to_nat r := v]> (registers env1))).
      { apply array_set_Some. split; [lia | reflexivity]. }
      congruence.
  - split; [now left | reflexivity].
Qed.

Lemma execute_store_undefined_iff_witness :
  exec (Store 10 (Constant 1)) (environment_init blank) = Undefined.
Proof.
  apply (execute_store_undefined_iff 10 (Constant 1) (environment_init blank)
           environment_init_wf).
  right. unfold REGISTER_COUNT. lia.
Defined.

(** ** Trees without Store *)

Lemma exec_without_store_same_env e :
  forall env v env',
    store_targets e = [] -> exec e env = Returns (v, env') -> env' = env.
Proof.
  induction e; intros env v env' Hnone H;
    try (match goal with
         | |- _ =>
             apply app_eq_nil in Hnone as [Hl Hr];
             match type of H with
             | exec (?op ?l ?r) _ = _ =>
                 destruct (exec_binary_runs (op l r) l r env v env' eq_refl H)
                   as (vl & env1 & vr & Hrunl & Hrunr)
             end;
             rewrite (IHe2 _ _ _ Hr Hrunr); exact (IHe1 _ _ _ Hl Hrunl)
         end).
  - apply ret_returns in H as [_ <-]. reflexivity.
  - simpl in H. unfold execute_sqrt in H. bind_inv H.
    apply ret_returns in H as [_ <-]. eauto.
  - apply execute_env_reg_load_returns in H as [_ ->]. reflexivity.
  - discriminate Hnone.
  - apply execute_env_read_returns in H as [_ ->]. reflexivity.
Qed.

(** X4: a tree with no Store node never changes the environment: when its
    evaluation returns, every input and every register is as before, and
    evaluating it again gives the same value. *)
Theorem exec_without_store_pure (e : expr) (env : environment) v env' :
  store_targets e = [] ->
  exec e env = Returns (v, env') ->
  env' = env /\ exec e env' = Returns (v, env') /\
  exec (Add e e) env = Returns ((v + v)%float, env).
Proof.
  intros Hnone H.
  pose proof (exec_without_store_same_env e env v env' Hnone H) as ->.
  split; [reflexivity|]. split; [exact H|].
  simpl. unfold execute_add.
  rewrite (bind_step _ _ _ _ _ H), (bind_step _ _ _ _ _ H). reflexivity.
Qed.

Lemma exec_without_store_pure_witness :
  exec (Add (Sqrt (Add (Constant 1) (Mul (Load 5) (Ident "x"))))
            (Sqrt (Add (Constant 1) (Mul (Load 5) (Ident "x")))))
       (bound_x 3)
  = Returns (2%float, bound_x 3).
Proof.
  apply (exec_without_store_pure
           (Sqrt (Add (Constant 1) (Mul (Load 5) (Ident "x"))))
           (bound_x 3) 1%float (bound_x 3));
    reflexivity.
Defined.

(** ** Where undefined behaviour can come from *)

Lemma Returns_or_Undefined {A : Type} (o : outcome A) :
  (exists a, o = Returns a) \/ o = Undefined.
Proof. destruct o; eauto. Qed.

(** X5: on an environment of the declared sizes, a tree without remainder
    nodes whose register indices are all in 0..9 and whose identifiers are
    all letters 'a'..'z' always evaluates to a value: division, square root
    and the other arithmetic nodes never make the evaluation undefined. *)
Theorem exec_well_indexed_returns (e : expr) :
  forall env,
    well_indexed e = true ->
    env_wf env ->
    exists v env', exec e env = Returns (v, env') /\ env_wf env'.
Proof.
  induction e; intros env Hwi Hwf; simpl in Hwi;
    try (apply andb_true_iff in Hwi as [Hwl Hwr];
         destruct (IHe1 env Hwl Hwf) as (vl & env1 & Hl & Hwf1);
         destruct (IHe2 env1 Hwr Hwf1) as (vr & env2 & Hr & Hwf2);
         simpl;
         unfold execute_add, execute_sub, execute_mul, execute_div;
         rewrite (bind_step _ _ _ _ _ Hl), (bind_step _ _ _ _ _ Hr);
         unfold ret; eauto).
  - (* Constant *) exists value, env. auto.
  - (* Rem *) discriminate.
  - (* Sqrt *)
    destruct (IHe env Hwi Hwf) as (va & env1 & Ha & Hwf1).
    simpl. unfold execute_sqrt. rewrite (bind_step _ _ _ _ _ Ha).
    unfold ret. eauto.
  - (* Load *)
    apply andb_true_iff in Hwi as [Hlo Hhi].
    apply Z.leb_le in Hlo. apply Z.ltb_lt in Hhi.
    destruct (array_get_in_bounds (registers env) reg_index) as [v Hv].
    { destruct Hwf as [_ Hregs]. lia. }
    exists v, env. split; [|assumption].
    apply execute_env_reg_load_returns. auto.
  - (* Store *)
    apply andb_true_iff in Hwi as [Hrange Hwa].
    apply andb_true_iff in Hrange as [Hlo Hhi].
    apply Z.leb_le in Hlo. apply Z.ltb_lt in Hhi.
    destruct (IHe env Hwa Hwf) as (va & env1 & Ha & Hwf1).
    destruct (exec_store_load reg_index e env va env1 (conj Hlo Hhi) Hwf Ha)
      as [Hstore _].
    do 2 eexists. split; [exact Hstore|].
    exact (exec_env_wf _ _ _ _ Hstore Hwf).
  - (* Ident *)
    apply andb_true_iff in Hwi as [Hlo Hhi].
    apply Z.leb_le in Hlo. apply Z.leb_le in Hhi.
    change (char_code "a") with 97 in Hlo. change (char_code "z") with 122 in Hhi.
    destruct (array_get_in_bounds (inputs env) (char_code name - char_code "a"))
      as [v Hv].
    { destruct Hwf as [Hin _]. change ENV_SIZE with 26 in Hin.
      change (char_code "a") with 97. lia. }
    exists v, env. split; [|assumption].
    apply execute_env_read_returns. auto.
Qed.

Lemma exec_well_indexed_returns_witness :
  exists v env', exec program_19 (bound_x 0) = Returns (v, env') /\ env_wf env'.
Proof.
  apply (exec_well_indexed_returns program_19 (bound_x 0)).
  - reflexivity.
  - split; reflexivity.
Defined.

(** ** Division and remainder at their edges *)

(** X6: Div(l, r) returns the floating-point quotient whenever l and r
    evaluate; a divisor of zero (of either sign) is no error: the quotient
    is then an infinity, or not-a-number when the dividend is zero or
    not-a-number itself. *)
Theorem execute_div_by_zero (l r : expr) (env : environment) vl env1 vr env2 :
  exec l env = Returns (vl, env1) ->
  exec r env1 = Returns (vr, env2) ->
  exec (Div l r) env = Returns ((vl / vr)%float, env2) /\
  (forall s, Prim2SF vr = S754_zero s ->
     match Prim2SF vl with
     | S754_zero _ | S754_nan => (vl / vr)%float = nan
     | S754_infinity sl | S754_finite sl _ _ =>
         (vl / vr)%float = if xorb sl s then neg_infinity else infinity
     end).
Proof.
  intros Hl Hr. split.
  - simpl. unfold execute_div.
    rewrite (bind_step _ _ _ _ _ Hl), (bind_step _ _ _ _ _ Hr). reflexivity.
  - intros s Hz.
    pose proof (div_spec vl vr) as Hdiv. rewrite Hz in Hdiv.
    unfold SF64div, SFdiv in Hdiv.
    destruct (Prim2SF vl) as [sl|sl| |sl m e];
      apply Prim2SF_inj; rewrite Hdiv; try reflexivity;
      destruct (xorb sl s); reflexivity.
Qed.

Lemma execute_div_by_zero_witness :
  exec (Div (Constant (-3)) (Constant 0)) (environment_init blank)
  = Returns (neg_infinity, environment_init blank).
Proof.
  destruct (execute_div_by_zero (Constant (-3)) (Constant 0)
              (environment_init blank) (-3)%float (environment_init blank)
              0%float (environment_init blank) eq_refl eq_refl)
    as [Hdiv _].
  exact Hdiv.
Defined.

(** X7: when l and r evaluate, Rem(l, r) is undefined in exactly four
    cases: the value of l has no integral part that is a signed 64-bit
    integer, the value of r has none, the integral part of r is zero, or the
    integral parts are -2^63 and -1. A NaN and the infinities have no
    integral part; -2^63 is still a 64-bit integer, 2^63 is not. *)
Theorem execute_rem_undefined_iff :
  (forall l r env vl env1 vr env2,
      exec l env = Returns (vl, env1) ->
      exec r env1 = Returns (vr, env2) ->
      (exec (Rem l r) env = Undefined <->
       ~ fits_int64 vl \/
       ~ fits_int64 vr \/
       truncates_to vr 0 \/
       (truncates_to vl (- 2 ^ 63) /\ truncates_to vr (-1)))) /\
  ~ fits_int64 nan /\
  ~ fits_int64 infinity /\
  ~ fits_int64 neg_infinity /\
  fits_int64 (-9223372036854775808)%float /\
  ~ fits_int64 9223372036854775808%float.
Proof.
  split; [|repeat split];
    try (apply double_to_int64_None; reflexivity).
  - intros l r env vl env1 vr env2 Hl Hr. simpl. unfold execute_rem.
    rewrite (bind_step _ _ _ _ _ Hl), (bind_step _ _ _ _ _ Hr).
    destruct (double_to_int64 vl) as [il|] eqn:Hil.
    2:{ apply double_to_int64_None in Hil. split; [now left | reflexivity]. }
    destruct (double_to_int64 vr) as [ir|] eqn:Hir.
    2:{ apply double_to_int64_None in Hir.
        split; [right; now left | reflexivity]. }
    assert (Hnl : ~ ~ fits_int64 vl)
      by (intros H; apply double_to_int64_None in H; congruence).
    assert (Hnr : ~ ~ fits_int64 vr)
      by (intros H; apply double_to_int64_None in H; congruence).
    assert (Hzero : truncates_to vr 0 <-> ir = 0).
    { split.
      - intros H. assert (double_to_int64 vr = Some 0)
          by (apply double_to_int64_truncates; split; [exact H | lia]).
        congruence.
      - intros ->. now apply double_to_int64_truncates in Hir. }
    assert (Hover : truncates_to vl (- 2 ^ 63) /\ truncates_to vr (-1)
                    <-> il = INT64_MIN /\ ir = -1).
    { unfold INT64_MIN. split.
      - intros [H1 H2].
        assert (double_to_int64 vl = Some (- 2 ^ 63))
          by (apply double_to_int64_truncates; split; [exact H1 | lia]).
        assert (double_to_int64 vr = Some (-1))
          by (apply double_to_int64_truncates; split; [exact H2 | lia]).
        split; congruence.
      - intros [-> ->].
        apply double_to_int64_truncates in Hil, Hir. tauto. }
    rewrite Hzero, Hover. clear Hzero Hover.
    unfold int64_rem.
    destruct (Z.eqb_spec ir 0) as [->|Hnz]; [tauto|].
    destruct (Z.eqb_spec il INT64_MIN) as [->|Hmin],
             (Z.eqb_spec ir (-1)) as [->|Hm1]; simpl.
    + tauto.
    + split; [discriminate | tauto].
    + split; [discriminate | tauto].
    + split; [discriminate | tauto].
  - exists (- 2 ^ 63). split; [|lia].
    apply double_trunc_truncates. reflexivity.
Qed.

Lemma execute_rem_undefined_iff_witness :
  exec (Rem (Constant (-9223372036854775808)) (Constant (-1)))
       (environment_init blank) = Undefined /\
  exec (Rem (Constant 9223372036854775808) (Constant 7))
       (environment_init blank) = Undefined.
Proof.
  split.
  - apply (proj1 execute_rem_undefined_iff
             (Constant (-9223372036854775808)) (Constant (-1))
             (environment_init blank)
             (-9223372036854775808)%float (environment_init blank)
             (-1)%float (environment_init blank) eq_refl eq_refl).
    right. right. right.
    split; vm_compute; repeat split; intros H; discriminate H.
  - apply (proj1 execute_rem_undefined_iff
             (Constant 9223372036854775808) (Constant 7)
             (environment_init blank)
             9223372036854775808%float (environment_init blank)
             7%float (environment_init blank) eq_refl eq_refl).
    left.
    exact (proj2 (proj2 (proj2 (proj2 (proj2 execute_rem_undefined_iff))))).
Defined.



(** ** Not-a-number *)

Lemma nan_absorbs (x : float) :
  ((nan + x = nan /\ x + nan = nan) /\ (nan - x = nan /\ x - nan = nan) /\
   (nan * x = nan /\ x * nan = nan) /\ (nan / x = nan /\ x / nan = nan))%float.
Proof.
  repeat split; apply Prim2SF_inj;
    rewrite ?add_spec, ?sub_spec, ?mul_spec, ?div_spec;
    change (Prim2SF nan) with S754_nan;
    unfold SF64add, SF64sub, SF64mul, SF64div, SFadd, SFsub, SFmul, SFdiv;
    destruct (Prim2SF x) as [?|?| |? ? ?]; reflexivity.
Qed.

(** X9: not-a-number is carried through the arithmetic nodes without any
    error: when either child of an Add, Sub, Mul or Div node evaluates to
    not-a-number, the node returns not-a-number. *)
Theorem exec_nan_propagates (l r : expr) (env : environment) vl env1 vr env2 :
  exec l env = Returns (vl, env1) ->
  exec r env1 = Returns (vr, env2) ->
  vl = nan \/ vr = nan ->
  exec (Add l r) env = Returns (nan, env2) /\
  exec (Sub l r) env = Returns (nan, env2) /\
  exec (Mul l r) env = Returns (nan, env2) /\
  exec (Div l r) env = Returns (nan, env2).
Proof.
  intros Hl Hr Hnan. simpl.
  unfold execute_add, execute_sub, execute_mul, execute_div.
  rewrite !(bind_step _ _ _ _ _ Hl), !(bind_step _ _ _ _ _ Hr). unfold ret.
  destruct Hnan as [-> | ->].
  - destruct (nan_absorbs vr) as ((-> & _) & (-> & _) & (-> & _) & (-> & _)).
    auto.
  - destruct (nan_absorbs vl) as ((_ & ->) & (_ & ->) & (_ & ->) & (_ & ->)).
    auto.
Qed.

Lemma exec_nan_propagates_witness :
  exec (Mul (Constant 0) (Sqrt (Constant (-1)))) (environment_init blank)
  = Returns (nan, environment_init blank).
Proof.
  destruct (exec_nan_propagates (Constant 0) (Sqrt (Constant (-1)))
              (environment_init blank) 0%float (environment_init blank)
              nan (environment_init blank) eq_refl eq_refl (or_intror eq_refl))
    as (_ & _ & Hmul & _).
  exact Hmul.
Defined.

(** * Further properties of the node pool *)

Lemma freelist_chain_insert (mem : list chunk_ptr) (head x : chunk_ptr)
      (e : nat) (l : list nat) :
  ~ In e l ->
  freelist_chain mem head l ->
  freelist_chain (<[e := x]> mem) head l.
Proof.
  revert head. induction l as [|c l IH]; intros head Hout Hchain; simpl in *.
  - exact Hchain.
  - destruct Hchain as (Hhead & next & Hnext & Hrest).
    split; [exact Hhead|]. exists next. split.
    + rewrite list_lookup_insert_ne; [exact Hnext|]. intros ->. tauto.
    + apply IH; [tauto | exact Hrest].
Qed.

Lemma freelist_chain_bound (mem : list chunk_ptr) (head : chunk_ptr) (l : list nat) :
  freelist_chain mem head l -> Forall (fun c => (c < length mem)%nat) l.
Proof.
  revert head. induction l as [|c l IH]; intros head Hchain; [constructor|].
  destruct Hchain as (_ & next & Hnext & Hrest). constructor.
  - exact (lookup_lt_Some _ _ _ Hnext).
  - exact (IH next Hrest).
Qed.

(** X10: when the freelist holds the chunks c, l' in this order, [allocate]
    returns c, writes no link, and leaves the freelist holding l'; c is no
    longer on it. When the freelist is empty, [allocate] returns NULL and
    leaves the pool as it was. *)
Theorem allocate_takes_head (st : pool) (l : list nat) :
  freelist_is st l ->
  match l with
  | [] => allocate st = Returns (NULL, st)
  | c :: l' =>
      exists st',
        allocate st = Returns (Some c, st') /\
        freelist_memory st' = freelist_memory st /\
        freelist_is st' l' /\
        ~ In c l' /\
        (c < length (freelist_memory st))%nat
  end.
Proof.
  intros [Hchain Hnodup]. destruct l as [|c l'].
  - now apply allocate_null.
  - destruct Hchain as (Hhead & next & Hnext & Hrest).
    eexists. split; [exact (allocate_pop st c next Hhead Hnext)|].
    apply NoDup_cons in Hnodup as [Hnotin Hnodup'].
    split; [reflexivity|]. split; [split; assumption|].
    split; [now rewrite <- list_elem_of_In|].
    exact (lookup_lt_Some _ _ _ Hnext).
Qed.

Lemma allocate_takes_head_witness :
  allocate {| freelist_memory := [NULL; Some 5%nat; Some 0%nat];
              freelist_head := Some 2%nat |}
  = Returns (Some 2%nat,
             {| freelist_memory := [NULL; Some 5%nat; Some 0%nat];
                freelist_head := Some 0%nat |}).
Proof.
  destruct (allocate_takes_head
              {| freelist_memory := [NULL; Some 5%nat; Some 0%nat];
                 freelist_head := Some 2%nat |} [2; 0]%nat)
    as (st' & Halloc & _).
  - split.
    + simpl. split; [reflexivity|]. exists (Some 0%nat). split; [reflexivity|].
      split; [reflexivity|]. exists NULL. split; reflexivity.
    + apply NoDup_cons. split; [|apply NoDup_singleton].
      intros Hin. apply list_elem_of_singleton in Hin. discriminate Hin.
  - pose proof Halloc as Hst. vm_compute in Hst. injection Hst as <-.
    exact Halloc.
Defined.

(** X11: when the freelist holds the chunks l and e is a chunk of the pool
    that is not among them, [deallocate] leaves the freelist holding e
    followed by l, and the pool keeps its size. *)
Theorem deallocate_puts_head (st : pool) (l : list nat) (e : nat) :
  freelist_is st l ->
  (e < length (freelist_memory st))%nat ->
  ~ In e l ->
  exists st',
    deallocate (Some e) st = Returns (tt, st') /\
    freelist_is st' (e :: l) /\
    length (freelist_memory st') = length (freelist_memory st).
Proof.
  intros [Hchain Hnodup] He Hout.
  eexists. split; [exact (deallocate_push st e He)|].
  split; [split|].
  - simpl. split; [reflexivity|]. exists (freelist_head st). split.
    + now apply list_lookup_insert_eq.
    + now apply freelist_chain_insert.
  - apply NoDup_cons. split; [now rewrite list_elem_of_In | exact Hnodup].
  - apply length_insert.
Qed.

Lemma deallocate_puts_head_witness :
  exists st',
    deallocate (Some 1%nat)
      {| freelist_memory := [NULL; Some 5%nat; Some 0%nat];
         freelist_head := Some 2%nat |}
    = Returns (tt, st') /\
    freelist_is st' [1; 2; 0]%nat.
Proof.
  destruct (deallocate_puts_head
              {| freelist_memory := [NULL; Some 5%nat; Some 0%nat];
                 freelist_head := Some 2%nat |} [2; 0]%nat 1)
    as (st' & Hfree & His & _).
  - split.
    + simpl. split; [reflexivity|]. exists (Some 0%nat). split; [reflexivity|].
      split; [reflexivity|]. exists NULL. split; reflexivity.
    + apply NoDup_cons. split; [|apply NoDup_singleton].
      intros Hin. apply list_elem_of_singleton in Hin. discriminate Hin.
  - simpl. lia.
  - simpl. intros [H|[H|[]]]; discriminate H.
  - exists st'. split; assumption.
Defined.

(** X12: for every pool, a chunk that [allocate] has just returned, given
    back by [deallocate] at once, leaves the pool exactly as it was before
    the allocation: head and links. *)
Theorem allocate_then_deallocate (st st' : pool) (c : nat) :
  allocate st = Returns (Some c, st') ->
  deallocate (Some c) st' = Returns (tt, st) /\
  (x <- allocate ;; deallocate x) st = Returns (tt, st).
Proof.
  intros Halloc.
  assert (Hback : deallocate (Some c) st' = Returns (tt, st)).
  { unfold allocate, bind, get, put, ret, undefined in Halloc.
    destruct st as [mem head]. simpl in Halloc.
    destruct head as [h|]; [|discriminate].
    destruct (mem !! h) as [next|] eqn:Hnext; [|discriminate].
    injection Halloc as <- <-.
    rewrite deallocate_push by exact (lookup_lt_Some _ _ _ Hnext).
    simpl. now rewrite list_insert_id. }
  split; [exact Hback|].
  rewrite (bind_step _ _ _ _ _ Halloc). exact Hback.
Qed.

Lemma allocate_then_deallocate_witness :
  (x <- allocate ;; deallocate x)
    {| freelist_memory := [NULL; Some 5%nat; Some 0%nat];
       freelist_head := Some 2%nat |}
  = Returns (tt, {| freelist_memory := [NULL; Some 5%nat; Some 0%nat];
                    freelist_head := Some 2%nat |}).
Proof.
  apply (allocate_then_deallocate
           {| freelist_memory := [NULL; Some 5%nat; Some 0%nat];
              freelist_head := Some 2%nat |}
           {| freelist_memory := [NULL; Some 5%nat; Some 0%nat];
              freelist_head := Some 0%nat |} 2).
  reflexivity.
Defined.

Lemma freelist_is_tail (st st' : pool) (c : nat) (l : list nat) :
  freelist_is st (c :: l) ->
  allocate st = Returns (Some c, st') ->
  freelist_is st' l /\ freelist_memory st' = freelist_memory st.
Proof.
  intros [Hchain Hnodup] Halloc.
  destruct Hchain as (Hhead & next & Hnext & Hrest).
  rewrite (allocate_pop st c next Hhead Hnext) in Halloc.
  injection Halloc as <-.
  apply NoDup_cons in Hnodup as [_ Hnodup]. split; [split|]; auto.
Qed.

(** X13: when the freelist holds the chunks l, k calls of [allocate] in a
    row return the first k chunks of l in order, then NULL for every call
    beyond the length of l; no link is written, and the freelist is left
    holding the rest of l. *)
Theorem allocate_times_freelist (k : nat) :
  forall (st : pool) (l : list nat),
    freelist_is st l ->
    exists st',
      allocate_times k st
      = Returns (fmap Some (take k l) ++ replicate (k - length l) NULL, st') /\
      freelist_memory st' = freelist_memory st /\
      freelist_is st' (drop k l).
Proof.
  induction k as [|k IH]; intros st l His.
  - exists st. rewrite drop_0. auto.
  - destruct l as [|c l].
    + destruct (IH st [] His) as (st' & Hrest & Hmem & His').
      assert (Hnull : allocate st = Returns (NULL, st)).
      { apply allocate_null. exact (proj1 His). }
      exists st'. simpl allocate_times.
      rewrite (bind_step _ _ _ _ _ Hnull), (bind_step _ _ _ _ _ Hrest).
      rewrite take_nil, drop_nil in *. simpl in *.
      rewrite ?Nat.sub_0_r in *. unfold ret. auto.
    + destruct His as [Hchain Hnodup].
      pose proof Hchain as (Hhead & next & Hnext & _).
      pose proof (allocate_pop st c next Hhead Hnext) as Halloc.
      destruct (freelist_is_tail st _ c l (conj Hchain Hnodup) Halloc)
        as [His1 Hmem1].
      destruct (IH _ l His1) as (st' & Hrest & Hmem & His').
      exists st'. simpl allocate_times.
      rewrite (bind_step _ _ _ _ _ Halloc), (bind_step _ _ _ _ _ Hrest).
      split; [reflexivity|]. split; [congruence | exact His'].
Qed.

Lemma allocate_times_freelist_witness :
  allocate_times 3 {| freelist_memory := [NULL; Some 5%nat; Some 0%nat];
                      freelist_head := Some 2%nat |}
  = Returns ([Some 2%nat; Some 0%nat; NULL],
             {| freelist_memory := [NULL; Some 5%nat; Some 0%nat];
                freelist_head := NULL |}).
Proof.
  destruct (allocate_times_freelist 3
              {| freelist_memory := [NULL; Some 5%nat; Some 0%nat];
                 freelist_head := Some 2%nat |} [2; 0]%nat)
    as (st' & Hall & _).
  - split.
    + simpl. split; [reflexivity|]. exists (Some 0%nat). split; [reflexivity|].
      split; [reflexivity|]. exists NULL. split; reflexivity.
    + apply NoDup_cons. split; [|apply NoDup_singleton].
      intros Hin. apply list_elem_of_singleton in Hin. discriminate Hin.
  - pose proof Hall as Hst. vm_compute in Hst. injection Hst as <-.
    exact Hall.
Defined.

Lemma freelist_chain_drawn (N : nat) (mem : list chunk_ptr) (k j : nat) :
  length mem = N -> (j + k = N)%nat ->
  freelist_chain (freelist_memory (drawn N mem j))
                 (freelist_head (drawn N mem j)) (seq j k).
Proof.
  intros Hlen. revert j. induction k as [|k IH]; intros j Hjk.
  - simpl. destruct (decide (j < N)%nat); [lia | reflexivity].
  - specialize (IH (S j) ltac:(lia)).
    change (seq j (S k)) with (j :: seq (S j) k).
    cbn [freelist_chain]. split.
    + simpl. destruct (decide (j < N)%nat); [reflexivity | lia].
    + exists (initial_next N j). split.
      * apply drawn_lookup; [assumption | lia].
      * rewrite initial_next_head by lia.
        rewrite (drawn_memory N mem j (S j)). exact IH.
Qed.

(** X14: on a pool of N >= 1 chunks, whatever its links and its head were
    before, [freelist_init] leaves every chunk free: the freelist holds
    0, 1, ..., N - 1, each once. *)
Theorem freelist_init_all_free (N : nat) (st0 : pool) :
  (0 < N)%nat ->
  pool_wf N st0 ->
  exists st,
    freelist_init N st0 = Returns (tt, st) /\
    pool_wf N st /\
    freelist_is st (seq 0 N).
Proof.
  intros HN Hwf. unfold pool_wf in *.
  exists (drawn N (freelist_memory st0) 0).
  split; [now apply freelist_init_returns|].
  split; [now rewrite drawn_length|].
  split; [|apply NoDup_seq].
  apply freelist_chain_drawn; [assumption | lia].
Qed.

Lemma freelist_init_all_free_witness :
  exists st,
    freelist_init 3 {| freelist_memory := [Some 1%nat; Some 1%nat; Some 7%nat];
                       freelist_head := Some 1%nat |}
    = Returns (tt, st) /\
    freelist_is st [0; 1; 2]%nat.
Proof.
  destruct (freelist_init_all_free 3
              {| freelist_memory := [Some 1%nat; Some 1%nat; Some 7%nat];
                 freelist_head := Some 1%nat |})
    as (st & Hinit & _ & His).
  - lia.
  - reflexivity.
  - exists st. split; assumption.
Defined.

(** X15: a chunk given to [deallocate] twice in a row ends up linked to
    itself at the head of the freelist; from then on every [allocate]
    returns this same chunk and leaves the pool as it is, so the pool never
    reports exhaustion. *)
Theorem deallocate_twice_cycles (st : pool) (e : nat) :
  (e < length (freelist_memory st))%nat ->
  exists st2,
    (deallocate (Some e) ;;; deallocate (Some e)) st = Returns (tt, st2) /\
    freelist_head st2 = Some e /\
    freelist_memory st2 !! e = Some (Some e) /\
    allocate st2 = Returns (Some e, st2) /\
    (forall k, allocate_times k st2 = Returns (replicate k (Some e), st2)).
Proof.
  intros He.
  set (st1 := {| freelist_memory := <[e := freelist_head st]> (freelist_memory st);
                 freelist_head := Some e |}).
  set (st2 := {| freelist_memory := <[e := Some e]> (freelist_memory st1);
                 freelist_head := Some e |}).
  assert (He1 : (e < length (freelist_memory st1))%nat)
    by (simpl; now rewrite length_insert).
  assert (H1 : deallocate (Some e) st = Returns (tt, st1))
    by now apply deallocate_push.
  assert (H2 : deallocate (Some e) st1 = Returns (tt, st2))
    by now apply deallocate_push.
  assert (Hlink : freelist_memory st2 !! e = Some (Some e))
    by now apply list_lookup_insert_eq.
  assert (Halloc : allocate st2 = Returns (Some e, st2))
    by exact (allocate_pop st2 e (Some e) eq_refl Hlink).
  exists st2. split; [now rewrite (bind_step _ _ _ _ _ H1)|].
  split; [reflexivity|]. split; [exact Hlink|]. split; [exact Halloc|].
  induction k as [|k IH]; [reflexivity|].
  simpl allocate_times.
  rewrite (bind_step _ _ _ _ _ Halloc), (bind_step _ _ _ _ _ IH). reflexivity.
Qed.

Lemma deallocate_twice_cycles_witness :
  (deallocate (Some 1%nat) ;;; deallocate (Some 1%nat) ;;; allocate_times 4)
    {| freelist_memory := [NULL; Some 5%nat; Some 0%nat];
       freelist_head := Some 2%nat |}
  = Returns ([Some 1; Some 1; Some 1; Some 1]%nat,
             {| freelist_memory := [NULL; Some 1%nat; Some 0%nat];
                freelist_head := Some 1%nat |}).
Proof.
  destruct (deallocate_twice_cycles
              {| freelist_memory := [NULL; Some 5%nat; Some 0%nat];
                 freelist_head := Some 2%nat |} 1)
    as (st2 & Htwice & _ & _ & _ & Hall).
  - simpl. lia.
  - pose proof Htwice as Hst. vm_compute in Hst. injection Hst as <-.
    unfold bind in Htwice |- *.
    destruct (deallocate (Some 1%nat) _) as [[[] st1]|]; [|discriminate].
    rewrite Htwice. exact (Hall 4%nat).
Defined.
